(** * Sync & index lifecycle orchestrator: a shallow embedding

    The development follows the repository file by file:

    - [database/database-schema.sql]: the tables [sync_jobs],
      [document_statuses], [opensearch_indices], [alias_actions], the tables
      that refer to [sync_jobs], and the trigger functions
      [update_sync_progress] and [update_timestamp];
    - the migration runner [runMigrations] together with the migration
      scripts it executes ([database/migrations/001_initial.sql]);
    - the [JobCoordinator] class and its [runJob] method;
    - the statistics of the dashboard [DocumentSyncDashboard];
    - the operations [createJob], [transition] and alias promotion, whose
      implementation lives in the API services and is modelled from the
      specification.

    Definitions come first, the theorems about them follow. *)

From Stdlib Require Import ZArith QArith Lia.
From stdpp Require Import base decidable option list gmap strings pretty.

Local Open Scope Z_scope.

(** Identifiers of rows ([UUID] columns) are drawn from a countable set. *)
Abbreviation uuid := N.

(* ===================================================================== *)
(** * [database-schema.sql]: enum types and tables                        *)
(* ===================================================================== *)

(** [CREATE TYPE job_status AS ENUM (...)] *)
Inductive job_status :=
| job_pending | job_running | job_completed | job_failed | job_cancelled.

(** [CREATE TYPE document_status AS ENUM (...)] *)
Inductive document_status :=
| pending | downloading | downloaded | sanitizing | sanitized
| embedding | embedded | failed | skipped.

(** [CREATE TYPE document_stage AS ENUM (...)] *)
Inductive document_stage := stage_original | stage_sanitized | stage_embedded.

#[global] Instance job_status_eq_dec : EqDecision job_status.
Proof. solve_decision. Defined.
#[global] Instance document_status_eq_dec : EqDecision document_status.
Proof. solve_decision. Defined.
#[global] Instance document_stage_eq_dec : EqDecision document_stage.
Proof. solve_decision. Defined.

(** A [NUMERIC(5, 2)] column holds a decimal with two fractional digits;
    it is represented by its value in hundredths ([3333] is [33.33]). *)
Abbreviation numeric_5_2 := Z.

(** Storing a [NUMERIC] value into a [NUMERIC(5, 2)] column rounds it to
    two fractional digits, ties away from zero.  *)
Definition round_numeric_5_2 (q : Q) : numeric_5_2 :=
  let n := Qnum q * 100 in
  let d := Z.pos (Qden q) in
  Z.sgn n * ((2 * Z.abs n + d) / (2 * d)).

(** The rational value of a stored [NUMERIC(5, 2)]. *)
Definition numeric_value (h : numeric_5_2) : Q := h # 100.

(** [CREATE TABLE sync_jobs], without its four timestamps, which the
    progress trigger neither reads nor assigns; [sync_jobs_full.row] below
    adds them. *)
Module sync_jobs.
Record row := Row {
  id : uuid;
  source : string;
  status : job_status;
  progress : numeric_5_2;
  error_message : option string;
  fresh_start : bool;
  prod_ready : bool;
  created_by : string;
  prod_ready_by : option string;
  documents_total : Z;
  documents_processed : Z;
  documents_success : Z;
  documents_failed : Z
}.
End sync_jobs.

(** [CREATE TABLE document_statuses], without its timestamps and
    [processing_time]; [document_statuses_full.row] below adds them. *)
Module document_statuses.
Record row := Row {
  id : uuid;
  sync_id : uuid;
  document_id : string;
  status : document_status;
  stage : option document_stage;
  path : option string;
  error : option string
}.
End document_statuses.

(** The row [INSERT INTO sync_jobs (id, source, fresh_start, created_by)]
    produces with the column defaults of the schema. *)
Definition new_job (id : uuid) (source : string) (freshStart : bool)
    (creator : string) : sync_jobs.row :=
  {| sync_jobs.id := id;
     sync_jobs.source := source;
     sync_jobs.status := job_pending;
     sync_jobs.progress := 0;
     sync_jobs.error_message := None;
     sync_jobs.fresh_start := freshStart;
     sync_jobs.prod_ready := false;
     sync_jobs.created_by := creator;
     sync_jobs.prod_ready_by := None;
     sync_jobs.documents_total := 0;
     sync_jobs.documents_processed := 0;
     sync_jobs.documents_success := 0;
     sync_jobs.documents_failed := 0 |}.

Record database := Database {
  sync_jobs_table : list sync_jobs.row;
  document_statuses_table : list document_statuses.row
}.

(* ===================================================================== *)
(** * [database-schema.sql]: the trigger [update_sync_progress]           *)
(* ===================================================================== *)

(** [COUNT( * ) FILTER (WHERE p)] over a list of rows. *)
Definition COUNT_FILTER (p : document_statuses.row → bool)
    (rows : list document_statuses.row) : Z :=
  Z.of_nat (length (filter (λ r, p r = true) rows)).

(** [status NOT IN ('pending', 'downloading')] *)
Definition status_processed (r : document_statuses.row) : bool :=
  negb (bool_decide (document_statuses.status r ∈ [pending; downloading])).

Definition status_is (s : document_status) (r : document_statuses.row) : bool :=
  bool_decide (document_statuses.status r = s).

(** The common table expression [counts]. *)
Record counts := Counts {
  total : Z;
  processed : Z;
  success : Z;
  failed_count : Z
}.

(** [SELECT ... FROM document_statuses WHERE sync_id = NEW.sync_id] *)
Definition select_counts (sync : uuid)
    (rows : list document_statuses.row) : counts :=
  let mine := filter (λ r, document_statuses.sync_id r = sync) rows in
  {| total := COUNT_FILTER (λ _, true) mine;
     processed := COUNT_FILTER status_processed mine;
     success := COUNT_FILTER (status_is embedded) mine;
     failed_count := COUNT_FILTER (status_is failed) mine |}.

(** [CASE WHEN counts.total > 0 THEN
      (counts.processed::NUMERIC / counts.total::NUMERIC) * 100 ELSE 0 END].
    The quotient is taken exactly; PostgreSQL keeps at least sixteen
    significant digits of it, which for [INTEGER] counts never changes the
    two digits that reach the column. *)
Definition progress_expr (c : counts) : Q :=
  if bool_decide (total c > 0)
  then (inject_Z (processed c) / inject_Z (total c)) * 100
  else 0.

(** [UPDATE sync_jobs SET ... FROM counts WHERE sync_jobs.id = NEW.sync_id] *)
Definition set_counts (c : counts) (j : sync_jobs.row) : sync_jobs.row :=
  {| sync_jobs.id := sync_jobs.id j;
     sync_jobs.source := sync_jobs.source j;
     sync_jobs.status := sync_jobs.status j;
     sync_jobs.progress := round_numeric_5_2 (progress_expr c);
     sync_jobs.error_message := sync_jobs.error_message j;
     sync_jobs.fresh_start := sync_jobs.fresh_start j;
     sync_jobs.prod_ready := sync_jobs.prod_ready j;
     sync_jobs.created_by := sync_jobs.created_by j;
     sync_jobs.prod_ready_by := sync_jobs.prod_ready_by j;
     sync_jobs.documents_total := total c;
     sync_jobs.documents_processed := processed c;
     sync_jobs.documents_success := success c;
     sync_jobs.documents_failed := failed_count c |}.

(** The trigger function.  [TG_TABLE_NAME] is the table the firing trigger
    is attached to and [NEW] the row that was written. *)
Definition update_sync_progress (TG_TABLE_NAME : string)
    (NEW : document_statuses.row) (db : database) : database :=
  if bool_decide (TG_TABLE_NAME = "document_statuses"%string) then
    let c := select_counts (document_statuses.sync_id NEW)
                           (document_statuses_table db) in
    {| sync_jobs_table :=
         map (λ j, if bool_decide (sync_jobs.id j = document_statuses.sync_id NEW)
                   then set_counts c j else j)
             (sync_jobs_table db);
       document_statuses_table := document_statuses_table db |}
  else db.

(** [CREATE TRIGGER update_sync_progress_trigger AFTER INSERT OR UPDATE ON
    document_statuses FOR EACH ROW]: once the statement has written its
    rows, the function runs once per written row. *)
Definition update_sync_progress_trigger
    (written : list document_statuses.row) (db : database) : database :=
  foldl (λ d NEW, update_sync_progress "document_statuses" NEW d) db written.

(** The statements that write [document_statuses]. *)
Inductive write :=
| INSERT (VALUES : list document_statuses.row)
| UPDATE (SET : document_statuses.row → document_statuses.row)
         (WHERE : document_statuses.row → bool).

(** The table after the statement, before any trigger runs. *)
Definition written_table (w : write) (rows : list document_statuses.row)
  : list document_statuses.row :=
  match w with
  | INSERT new => rows ++ new
  | UPDATE set_ where_ => map (λ r, if where_ r then set_ r else r) rows
  end.

(** The rows the statement wrote (the [NEW] rows of the trigger). *)
Definition written_rows (w : write) (rows : list document_statuses.row)
  : list document_statuses.row :=
  match w with
  | INSERT new => new
  | UPDATE set_ where_ => map set_ (filter (λ r, where_ r = true) rows)
  end.

(** [PRIMARY KEY (id)], [UNIQUE (sync_id, document_id)] and
    [sync_id REFERENCES sync_jobs(id)]. *)
Definition constraints_hold (jobs : list sync_jobs.row)
    (rows : list document_statuses.row) : Prop :=
  NoDup (map document_statuses.id rows)
  ∧ NoDup (map (λ r, (document_statuses.sync_id r,
                       document_statuses.document_id r)) rows)
  ∧ Forall (λ r, document_statuses.sync_id r ∈ map sync_jobs.id jobs) rows.

#[global] Instance constraints_hold_dec jobs rows :
  Decision (constraints_hold jobs rows).
Proof. unfold constraints_hold. apply _. Defined.

(** Executing a write: the statement fails, changing nothing, when a
    constraint is violated; otherwise the trigger runs for every row. *)
Definition exec_write (w : write) (db : database) : option database :=
  let rows' := written_table w (document_statuses_table db) in
  if decide (constraints_hold (sync_jobs_table db) rows') then
    Some (update_sync_progress_trigger
            (written_rows w (document_statuses_table db))
            {| sync_jobs_table := sync_jobs_table db;
               document_statuses_table := rows' |})
  else None.

(** After the trigger has run for all written rows, exactly the jobs
    those rows refer to carry the counts of the table. *)
Definition refreshed (written rows : list document_statuses.row)
    (j : sync_jobs.row) : sync_jobs.row :=
  if bool_decide (sync_jobs.id j ∈ map document_statuses.sync_id written)
  then set_counts (select_counts (sync_jobs.id j) rows) j
  else j.

(** Examples: a document row, and one pending job for the source [mitre]
    with no document yet. *)
Definition document (id sync : uuid) (name : string) (s : document_status)
  : document_statuses.row :=
  {| document_statuses.id := id; document_statuses.sync_id := sync;
     document_statuses.document_id := name; document_statuses.status := s;
     document_statuses.stage := None; document_statuses.path := None;
     document_statuses.error := None |}.

Definition mitre_job : database :=
  {| sync_jobs_table := [new_job 1 "mitre" false "scheduler"];
     document_statuses_table := [] |}.

(** Modelled from the spec: the per-document state machine of section
    4.2, which [recordTransition] of the sync management API enforces; the
    API is not among the sources. *)
Definition document_edge (old new : document_status) : bool :=
  match old, new with
  | pending, downloading | downloading, downloaded | downloaded, sanitizing
  | sanitizing, sanitized | sanitized, embedding | embedding, embedded => true
  | pending, skipped => true
  | (pending | downloading | downloaded | sanitizing | sanitized | embedding),
    failed => true
  | _, _ => false
  end.

(** A row is rewritten along the state machine: it stays with its job,
    and its status stays or moves along an edge. *)
Definition row_follows_state_machine (r r' : document_statuses.row) : Prop :=
  document_statuses.sync_id r' = document_statuses.sync_id r
  ∧ (document_statuses.status r' = document_statuses.status r
     ∨ document_edge (document_statuses.status r)
                     (document_statuses.status r') = true).

(** A write follows the state machine: inserts register new documents,
    updates rewrite rows along the state machine. *)
Definition follows_state_machine (w : write)
    (rows : list document_statuses.row) : Prop :=
  match w with
  | INSERT _ => True
  | UPDATE set_ where_ =>
      Forall (λ r, where_ r = true → row_follows_state_machine r (set_ r)) rows
  end.

(** One recorded write that follows the state machine. *)
Definition tracked_write (db db' : database) : Prop :=
  ∃ w, follows_state_machine w (document_statuses_table db)
       ∧ exec_write w db = Some db'.

(** The counters of every job are those of its rows. *)
Definition job_counts (j : sync_jobs.row) : counts :=
  {| total := sync_jobs.documents_total j;
     processed := sync_jobs.documents_processed j;
     success := sync_jobs.documents_success j;
     failed_count := sync_jobs.documents_failed j |}.

Definition in_sync (db : database) : Prop :=
  Forall (λ j, job_counts j
               = select_counts (sync_jobs.id j) (document_statuses_table db))
         (sync_jobs_table db).

Definition counts_le (c c' : counts) : Prop :=
  total c ≤ total c' ∧ processed c ≤ processed c'
  ∧ success c ≤ success c' ∧ failed_count c ≤ failed_count c'.

(** The counters of the job [j] are those of its rows in [db]. *)
Definition job_in_sync (db : database) (j : sync_jobs.row) : Prop :=
  job_counts j = select_counts (sync_jobs.id j) (document_statuses_table db).

(** From [db] to [db'] the jobs are the same, in the same order, and each
    job on its own: if its counters agreed with its rows in [db], they
    agree with its rows in [db'] and none of them has decreased.  Nothing
    is asked of a job whose counters did not agree with its rows. *)
Definition counters_grow (db db' : database) : Prop :=
  Forall2 (λ j j', sync_jobs.id j = sync_jobs.id j'
                   ∧ (job_in_sync db j →
                      job_in_sync db' j'
                      ∧ counts_le (job_counts j) (job_counts j')))
          (sync_jobs_table db) (sync_jobs_table db').

(** A job of the source [mitre] with no document yet, beside a job of
    another source whose counters do not agree with its rows (it has
    none). *)
Definition mitre_job_beside_stale_job : database :=
  {| sync_jobs_table :=
       [new_job 1 "mitre" false "scheduler";
        set_counts {| total := 5; processed := 5; success := 5;
                      failed_count := 0 |}
                   (new_job 2 "cpr_blogs" false "scheduler")];
     document_statuses_table := [] |}.

(* ===================================================================== *)
(** * The migration runner [runMigrations]                                *)
(* ===================================================================== *)

(** What the runner can observe of a PostgreSQL database: the application
    tables that exist, and the [migrations] table ([None] until it is
    created) with its [name] column in insertion order. *)
Record pg_database := PgDatabase {
  tables : gset string;
  migrations : option (list string)
}.

Abbreviation pg_error := string.

(** The statements of a migration script.  [BEGIN] and [COMMIT] are the
    transaction control statements that [001_initial.sql] wraps itself in;
    [SQL run] is any statement over the application tables, failing with
    an error or producing the new set of tables.  Migration scripts do not
    touch the [migrations] table itself. *)
Inductive statement :=
| BEGIN
| COMMIT
| SQL (run : gset string → pg_error + gset string).

(** [CREATE TABLE name (...)] *)
Definition CREATE_TABLE (name : string) : statement :=
  SQL (λ t, if decide (name ∈ t)
            then inl ("relation already exists: " +:+ name)
            else inr ({[name]} ∪ t)).

(** [migrations/001_initial.sql] *)
Definition initial_sql : list statement :=
  [BEGIN; CREATE_TABLE "sync_jobs"; CREATE_TABLE "documents"; COMMIT].

(** The queries a client sends, as the server sees them. *)
Inductive query_text :=
| Q_BEGIN
| Q_CREATE_TABLE_IF_NOT_EXISTS_migrations
| Q_SELECT_name_FROM_migrations
| Q_script (sql : list statement)
| Q_INSERT_INTO_migrations (name : string)
| Q_COMMIT
| Q_ROLLBACK.

(** A connection ([client]): the committed content of the database, the
    content the connection currently sees, whether an explicit
    transaction block is open, and the queries received so far. *)
Record session := Session {
  committed : pg_database;
  current : pg_database;
  in_transaction : bool;
  received : list query_text
}.

Definition connect (db : pg_database) : session :=
  {| committed := db; current := db; in_transaction := false; received := [] |}.

Definition set_current (d : pg_database) (s : session) : session :=
  {| committed := committed s; current := d;
     in_transaction := in_transaction s; received := received s |}.

(** [BEGIN]: opens a transaction block (inside one, only a warning). *)
Definition pg_begin (s : session) : session :=
  {| committed := committed s; current := current s;
     in_transaction := true; received := received s |}.

(** [COMMIT]: what the connection sees becomes the committed content and
    the block, if any, ends (outside a block, only a warning). *)
Definition pg_commit (s : session) : session :=
  {| committed := current s; current := current s;
     in_transaction := false; received := received s |}.

(** [ROLLBACK]: back to the committed content; the block ends. *)
Definition pg_rollback (s : session) : session :=
  {| committed := committed s; current := committed s;
     in_transaction := false; received := received s |}.

Definition log_query (q : query_text) (s : session) : session :=
  {| committed := committed s; current := current s;
     in_transaction := in_transaction s; received := received s ++ [q] |}.

Definition exec_statement (st : statement) (s : session) : pg_error + session :=
  match st with
  | BEGIN => inr (pg_begin s)
  | COMMIT => inr (pg_commit s)
  | SQL run =>
      match run (tables (current s)) with
      | inl e => inl e
      | inr t => inr (set_current {| tables := t;
                                     migrations := migrations (current s) |} s)
      end
  end.

(** The statements of one query string run in order and stop at the first
    error; the session reached at that point is returned with the error. *)
Fixpoint exec_statements (sql : list statement) (s : session)
  : pg_error * session + session :=
  match sql with
  | [] => inr s
  | st :: sql' =>
      match exec_statement st s with
      | inl e => inl (e, s)
      | inr s' => exec_statements sql' s'
      end
  end.

(** The end of a query: outside a transaction block its effects are
    committed on success and undone on error; inside a block they stay
    pending. *)
Definition end_of_query (ok : bool) (s : session) : session :=
  if in_transaction s then s
  else if ok then pg_commit s else pg_rollback s.

(** The outcome of awaiting [client.query(...)]: a value or a thrown
    error, and the session afterwards. *)
Definition js_result (A : Type) : Type := (pg_error + A) * session.

(** An asynchronous computation over the client, and the sequencing of
    awaited calls: a thrown error skips what follows. *)
Definition async (A : Type) : Type := session → js_result A.

#[global] Instance async_ret : MRet async := λ A a s, (inr a, s).

#[global] Instance async_bind : MBind async := λ A B k m s,
  match m s with
  | (inl e, s') => (inl e, s')
  | (inr a, s') => k a s'
  end.

(** [client.query(sql)] for the content of a migration file. *)
Definition query_script (sql : list statement) : async unit := λ s,
  match exec_statements sql (log_query (Q_script sql) s) with
  | inl (e, s') => (inl e, end_of_query false s')
  | inr s' => (inr (), end_of_query true s')
  end.

(** [client.query('BEGIN')] *)
Definition query_BEGIN : async unit := λ s,
  (inr (), pg_begin (log_query Q_BEGIN s)).

(** [client.query('COMMIT')] *)
Definition query_COMMIT : async unit := λ s,
  (inr (), pg_commit (log_query Q_COMMIT s)).

(** [client.query('ROLLBACK')] *)
Definition query_ROLLBACK : async unit := λ s,
  (inr (), pg_rollback (log_query Q_ROLLBACK s)).

(** [client.query(`CREATE TABLE IF NOT EXISTS migrations (...)`)] *)
Definition query_CREATE_TABLE_IF_NOT_EXISTS_migrations : async unit := λ s,
  let s := log_query Q_CREATE_TABLE_IF_NOT_EXISTS_migrations s in
  let d := current s in
  (inr (), end_of_query true
     (set_current {| tables := tables d;
                     migrations := Some (default [] (migrations d)) |} s)).

(** [client.query('SELECT name FROM migrations')], returning [rows]
    already mapped through [r => r.name]. *)
Definition query_SELECT_name_FROM_migrations : async (list string) := λ s,
  let s := log_query Q_SELECT_name_FROM_migrations s in
  match migrations (current s) with
  | Some rows => (inr rows, end_of_query true s)
  | None => (inl "relation migrations does not exist"%string,
             end_of_query false s)
  end.

(** [client.query('INSERT INTO migrations (name) VALUES ($1)', [file])] *)
Definition query_INSERT_INTO_migrations (file : string) : async unit := λ s,
  let s := log_query (Q_INSERT_INTO_migrations file) s in
  let d := current s in
  match migrations d with
  | Some rows =>
      (inr (), end_of_query true
         (set_current {| tables := tables d;
                         migrations := Some (rows ++ [file]) |} s))
  | None => (inl "relation migrations does not exist"%string,
             end_of_query false s)
  end.

(** The migrations directory: the names [fs.readdirSync] returns, in the
    order it returns them, each with the content [fs.readFileSync] reads. *)
Abbreviation directory := (list (string * list statement)).

(** [for (const file of migrationFiles) { ... }] *)
Fixpoint apply_migrations (migrationFiles : directory) : async unit :=
  match migrationFiles with
  | [] => mret ()
  | (file, sql) :: rest =>
      query_script sql;;
      query_INSERT_INTO_migrations file;;
      apply_migrations rest
  end.

(** The body of the [try] block. *)
Definition runMigrations_try (dir : directory) : async unit :=
  query_BEGIN;;
  query_CREATE_TABLE_IF_NOT_EXISTS_migrations;;
  rows ← query_SELECT_name_FROM_migrations;
  let appliedMigrations : gset string := list_to_set rows in
  let migrationFiles := filter (λ f, f.1 ∉ appliedMigrations) dir in
  apply_migrations migrationFiles;;
  query_COMMIT.

(** [runMigrations]: [try { ... } catch (e) { ROLLBACK; throw e }
    finally { client.release() }].  The result is the promise's outcome
    and the session as the released client leaves it. *)
Definition runMigrations (dir : directory) (db : pg_database) : js_result unit :=
  match runMigrations_try dir (connect db) with
  | (inl e, s) => (inl e, (query_ROLLBACK s).2)
  | (inr (), s) => (inr (), s)
  end.

(** The queries a run sends for the files it applies. *)
Definition queries_for (files : directory) : list query_text :=
  files ≫= λ f, [Q_script f.2; Q_INSERT_INTO_migrations f.1].

(** The files of the directory whose names are not among [rows]. *)
Definition not_yet_applied (rows : list string) (dir : directory) : directory :=
  filter (λ f, f.1 ∉ rows) dir.

(** The effect of the statements of a script on the application tables,
    transaction control left aside. *)
Fixpoint table_effect (sql : list statement) (t : gset string)
  : pg_error + gset string :=
  match sql with
  | [] => inr t
  | BEGIN :: rest | COMMIT :: rest => table_effect rest t
  | SQL run :: rest =>
      match run t with
      | inl e => inl e
      | inr t' => table_effect rest t'
      end
  end.

(** A script without transaction control. *)
Definition plain (sql : list statement) : Prop :=
  Forall (λ st, match st with SQL _ => True | _ => False end) sql.

(** A database without any table, and a migration that fails. *)
Definition fresh_database : pg_database :=
  {| tables := ∅; migrations := None |}.

Definition broken_sql : list statement :=
  [SQL (λ _, inl "syntax error"%string)].

Definition shipped_then_broken : directory :=
  [("001_initial.sql"%string, initial_sql);
   ("002_broken.sql"%string, broken_sql)].

(* ===================================================================== *)
(** * The job coordinator: [class JobCoordinator]                         *)
(* ===================================================================== *)

Module JobCoordinator.

(** Workers are named in the order [new Worker(...)] constructs them; the
    promise built in the same call of [runJob] carries the worker's name.
    Calls of [runJob] are numbered in the order they are made. *)
Abbreviation worker := nat.
Abbreviation promise := nat.
Abbreviation call := nat.

(** Values that travel through promises: what a worker posts, and what a
    promise is rejected with. *)
Abbreviation value := string.

Inductive js_error :=
| thrown (e : value)            (** the argument of an ['error'] event *)
| Error (message : string).     (** [new Error(message)] *)

#[global] Instance js_error_eq_dec : EqDecision js_error.
Proof. solve_decision. Defined.

Inductive promise_state :=
| Pending
| Fulfilled (v : value)
| Rejected (e : js_error).

#[global] Instance promise_state_eq_dec : EqDecision promise_state.
Proof. solve_decision. Defined.

(** The events a [Worker] emits to its parent. *)
Inductive worker_event :=
| message (v : value)
| error (e : value)
| exit (code : Z).

(** What is known of a constructed worker: the arguments of the [runJob]
    call that constructed it, and which call that was. *)
Record worker_info := WorkerInfo {
  jobType : string;
  workerData : value;
  spawned_by : call
}.

(** A call of [runJob] suspended at [await Promise.race(...)]: the
    promises that were in [this.running] when the race was built. *)
Record blocked_call := BlockedCall {
  blocked_id : call;
  blocked_jobType : string;
  blocked_data : value;
  race : list promise
}.

(** How far a call of [runJob] has got once it is no longer suspended:
    it returned the promise of the worker it constructed, or it threw. *)
Inductive call_outcome :=
| returned (p : promise)
| threw (e : js_error).

(** The coordinator object together with the part of the JavaScript heap
    it refers to. *)
Record state := State {
  maxParallel : nat;
  running : gmap worker promise;            (** [this.running] *)
  promises : gmap promise promise_state;
  workers : gmap worker worker_info;        (** every worker constructed *)
  blocked : list blocked_call;
  calls : gmap call call_outcome;
  next_worker : nat;
  next_call : nat
}.

(** [new JobCoordinator(maxParallel)]; the module exports
    [new JobCoordinator()], whose [maxParallel] is 3. *)
Definition constructor (maxParallel : nat) : state :=
  {| maxParallel := maxParallel; running := ∅; promises := ∅; workers := ∅;
     blocked := []; calls := ∅; next_worker := 0; next_call := 0 |}.

Definition exported : state := constructor 3.

(** Lines 15 to 30 of [runJob]: construct the worker and its promise,
    register both in [this.running], return the promise. *)
Definition spawn (c : call) (type : string) (data : value) (st : state) : state :=
  let w := next_worker st in
  {| maxParallel := maxParallel st;
     running := <[w := w]> (running st);
     promises := <[w := Pending]> (promises st);
     workers := <[w := {| jobType := type; workerData := data;
                          spawned_by := c |}]> (workers st);
     blocked := blocked st;
     calls := <[c := returned w]> (calls st);
     next_worker := S w;
     next_call := next_call st |}.

(** A call of [runJob]: at the ceiling it suspends on the race over the
    promises now in [this.running]; below it, it goes straight on. *)
Definition runJob (type : string) (data : value) (st : state) : state :=
  let c := next_call st in
  let st := {| maxParallel := maxParallel st; running := running st;
               promises := promises st; workers := workers st;
               blocked := blocked st; calls := calls st;
               next_worker := next_worker st; next_call := S c |} in
  if decide (maxParallel st ≤ size (running st))%nat then
    {| maxParallel := maxParallel st; running := running st;
       promises := promises st; workers := workers st;
       blocked := blocked st ++
         [{| blocked_id := c; blocked_jobType := type; blocked_data := data;
             race := (map_to_list (running st)).*2 |}];
       calls := calls st;
       next_worker := next_worker st; next_call := next_call st |}
  else spawn c type data st.

(** A suspended call resumes when the race settles: a fulfilled race lets
    it go on to construct its worker (the size of [this.running] is not
    looked at again), a rejected race makes the [await] throw. *)
Definition resume (outcome : promise_state) (st : state) (b : blocked_call)
  : state :=
  match outcome with
  | Rejected e =>
      {| maxParallel := maxParallel st; running := running st;
         promises := promises st; workers := workers st;
         blocked := blocked st;
         calls := <[blocked_id b := threw e]> (calls st);
         next_worker := next_worker st; next_call := next_call st |}
  | _ => spawn (blocked_id b) (blocked_jobType b) (blocked_data b) st
  end.

(** Settling the promise of worker [w]: the promise takes its outcome,
    the [finally] callback removes the worker from [this.running], and the
    calls whose race contains the promise are taken off the waiting list. *)
Definition settled (w : worker) (outcome : promise_state) (st : state) : state :=
  {| maxParallel := maxParallel st;
     running := delete w (running st);
     promises := <[w := outcome]> (promises st);
     workers := workers st;
     blocked := filter (λ b, w ∉ race b) (blocked st);
     calls := calls st;
     next_worker := next_worker st; next_call := next_call st |}.

(** Every call whose race contains the promise then resumes, in the
    order the calls were made. *)
Definition settle (w : worker) (outcome : promise_state) (st : state) : state :=
  foldl (resume outcome) (settled w outcome st)
        (filter (λ b, w ∈ race b) (blocked st)).

(** The executor of [new Promise((resolve, reject) => ...)]: what each
    event of the worker does to the promise, [None] when it does nothing.
    [message] resolves, [error] rejects, [exit] rejects when
    [code !== 0]. *)
Definition handler (ev : worker_event) : option promise_state :=
  match ev with
  | message v => Some (Fulfilled v)
  | error e => Some (Rejected (thrown e))
  | exit code =>
      if decide (code ≠ 0)
      then Some (Rejected (Error ("Worker stopped with code " +:+ pretty code)))
      else None
  end.

(** Delivery of a worker event: a promise settles once, later calls of
    [resolve] or [reject] have no effect. *)
Definition emit (w : worker) (ev : worker_event) (st : state) : state :=
  match promises st !! w, handler ev with
  | Some Pending, Some outcome => settle w outcome st
  | _, _ => st
  end.

(** What happens to the coordinator, one event-loop turn at a time. *)
Inductive event :=
| call_runJob (type : string) (data : value)
| worker_emits (w : worker) (ev : worker_event).

Definition step (st : state) (e : event) : state :=
  match e with
  | call_runJob type data => runJob type data st
  | worker_emits w ev => emit w ev st
  end.

Definition run (es : list event) (st : state) : state := foldl step st es.

(** The promise the caller of [runJob] holds, as the caller sees it. *)
Definition submitter_sees (c : call) (st : state) : promise_state :=
  match calls st !! c with
  | Some (returned p) => default Pending (promises st !! p)
  | Some (threw e) => Rejected e
  | None => Pending
  end.

(** The workers a call has constructed. *)
Definition workers_of (c : call) (st : state) : list worker :=
  (map_to_list (filter (λ kv, spawned_by kv.2 = c) (workers st))).*1.

(** The number of workers in flight. *)
Definition in_flight (st : state) : nat := size (running st).

(** The bookkeeping that every state the coordinator reaches satisfies.
    [extra] lists calls that have been woken and are about to resume. *)
Record consistent (extra : list blocked_call) (st : state) : Prop := {
  promises_known : ∀ w, is_Some (promises st !! w) → (w < next_worker st)%nat;
  workers_known : ∀ w i, workers st !! w = Some i →
                    (w < next_worker st)%nat
                    ∧ calls st !! spawned_by i = Some (returned w);
  calls_known : ∀ c, is_Some (calls st !! c) → (c < next_call st)%nat;
  blocked_known : Forall (λ b, (blocked_id b < next_call st)%nat
                               ∧ calls st !! blocked_id b = None)
                         (blocked st ++ extra);
  blocked_distinct : NoDup (blocked_id <$> (blocked st ++ extra));
  running_pending : ∀ w p, running st !! w = Some p →
                      p = w ∧ promises st !! w = Some Pending;
  races_pending : Forall (λ b, Forall (λ p, promises st !! p = Some Pending)
                                      (race b))
                         (blocked st)
}.

(** [st'] extends [st]: outcomes of calls, settled promises and
    constructed workers are kept, and promises stay allocated. *)
Record extends (st st' : state) : Prop := {
  calls_kept : ∀ c o, calls st !! c = Some o → calls st' !! c = Some o;
  settled_kept : ∀ p o, promises st !! p = Some o → o ≠ Pending →
                   promises st' !! p = Some o;
  promises_kept : ∀ p, is_Some (promises st !! p) → is_Some (promises st' !! p);
  workers_kept : ∀ w i, workers st !! w = Some i → workers st' !! w = Some i
}.

(** Five submissions made in one turn, as by
    [batches.map(b => coordinator.runJob('docs_embeddings', b))]. *)
Definition five_submissions : list event :=
  [call_runJob "docs_embeddings" "batch-1";
   call_runJob "docs_embeddings" "batch-2";
   call_runJob "docs_embeddings" "batch-3";
   call_runJob "docs_embeddings" "batch-4";
   call_runJob "docs_embeddings" "batch-5"].

End JobCoordinator.

(* ===================================================================== *)
(** * The sync job registry                                               *)
(* ===================================================================== *)

Module Registry.

Inductive registry_error :=
| ConflictError
| InvalidTransitionError
| UnknownJobError.

(** A job is terminal once it is completed, failed or cancelled. *)
Definition non_terminal (s : job_status) : bool :=
  bool_decide (s ∈ [job_pending; job_running]).

(** The default [uuid_generate_v4()] of the [id] column yields an
    identifier no row has yet. *)
Definition uuid_generate (jobs : list sync_jobs.row) : uuid :=
  N.succ (foldr N.max 0%N (map sync_jobs.id jobs)).

(** Modelled from the spec: [createJob] is implemented in the sync
    management API, which is not among the sources; section 4.1 gives its
    contract.  It fails with [ConflictError] if a non-terminal job already
    exists for the source, and otherwise creates the job [pending]. *)
Definition createJob (source : string) (freshStart : bool) (creator : string)
    (db : database) : registry_error + sync_jobs.row * database :=
  if bool_decide (Exists (λ j, sync_jobs.source j = source
                               ∧ non_terminal (sync_jobs.status j) = true)
                         (sync_jobs_table db))
  then inl ConflictError
  else
    let job := new_job (uuid_generate (sync_jobs_table db))
                       source freshStart creator in
    inr (job, {| sync_jobs_table := sync_jobs_table db ++ [job];
                 document_statuses_table := document_statuses_table db |}).

(** Modelled from the spec: the transition table of section 4.1,
    [pending → running → {completed, failed, cancelled}]. *)
Definition valid_transition (old new : job_status) : bool :=
  match old, new with
  | job_pending, job_running
  | job_running, job_completed
  | job_running, job_failed
  | job_running, job_cancelled => true
  | _, _ => false
  end.

(** A document is in a terminal per-document state once it is embedded,
    failed or skipped. *)
Definition document_terminal (s : document_status) : bool :=
  bool_decide (s ∈ [embedded; failed; skipped]).

Definition set_status (new : job_status) (message : option string)
    (j : sync_jobs.row) : sync_jobs.row :=
  {| sync_jobs.id := sync_jobs.id j;
     sync_jobs.source := sync_jobs.source j;
     sync_jobs.status := new;
     sync_jobs.progress := sync_jobs.progress j;
     sync_jobs.error_message := message;
     sync_jobs.fresh_start := sync_jobs.fresh_start j;
     sync_jobs.prod_ready := sync_jobs.prod_ready j;
     sync_jobs.created_by := sync_jobs.created_by j;
     sync_jobs.prod_ready_by := sync_jobs.prod_ready_by j;
     sync_jobs.documents_total := sync_jobs.documents_total j;
     sync_jobs.documents_processed := sync_jobs.documents_processed j;
     sync_jobs.documents_success := sync_jobs.documents_success j;
     sync_jobs.documents_failed := sync_jobs.documents_failed j |}.

(** The conditions section 4.1 puts on a transition of job [j]: the edge
    is in the table, [failed] comes with a non-empty error message, and
    [completed] with no document left in a non-terminal state. *)
Definition transition_allowed (docs : list document_statuses.row)
    (j : sync_jobs.row) (new : job_status) (message : option string) : bool :=
  valid_transition (sync_jobs.status j) new
  && (if decide (new = job_failed)
      then bool_decide (message ≠ None ∧ message ≠ Some ""%string)
      else true)
  && (if decide (new = job_completed)
      then bool_decide
             (Forall (λ r, document_statuses.sync_id r = sync_jobs.id j
                           → document_terminal (document_statuses.status r) = true)
                     docs)
      else true).

(** The job with identifier [jobId] is looked up and updated in place. *)
Fixpoint transition_rows (docs : list document_statuses.row) (jobId : uuid)
    (new : job_status) (message : option string) (jobs : list sync_jobs.row)
  : registry_error + list sync_jobs.row :=
  match jobs with
  | [] => inl UnknownJobError
  | j :: rest =>
      if decide (sync_jobs.id j = jobId) then
        if transition_allowed docs j new message
        then inr (set_status new message j :: rest)
        else inl InvalidTransitionError
      else
        match transition_rows docs jobId new message rest with
        | inl e => inl e
        | inr rest' => inr (j :: rest')
        end
  end.

(** Modelled from the spec: [transition(jobId, newStatus, errorMessage?)]
    of section 4.1, absent from the sources like [createJob]. *)
Definition transition (jobId : uuid) (new : job_status)
    (message : option string) (db : database) : registry_error + database :=
  match transition_rows (document_statuses_table db) jobId new message
                        (sync_jobs_table db) with
  | inl e => inl e
  | inr jobs => inr {| sync_jobs_table := jobs;
                       document_statuses_table := document_statuses_table db |}
  end.

(** The requests the registry serves.  Each one is a serializable
    transaction (section 5), so concurrent callers are served in some
    order, one request after the other; a request that fails leaves the
    database as it was. *)
Inductive request :=
| req_createJob (source : string) (freshStart : bool) (creator : string)
| req_transition (jobId : uuid) (new : job_status) (message : option string)
| req_write (w : write).

Definition serve (db : database) (r : request) : database :=
  match r with
  | req_createJob source freshStart creator =>
      match createJob source freshStart creator db with
      | inr (_, db') => db'
      | inl _ => db
      end
  | req_transition jobId new message =>
      match transition jobId new message db with
      | inr db' => db'
      | inl _ => db
      end
  | req_write w => default db (exec_write w db)
  end.

Definition no_jobs : database :=
  {| sync_jobs_table := []; document_statuses_table := [] |}.

(** The non-terminal jobs of a source. *)
Definition non_terminal_jobs (source : string) (db : database)
  : list sync_jobs.row :=
  filter (λ j, sync_jobs.source j = source
               ∧ non_terminal (sync_jobs.status j) = true)
         (sync_jobs_table db).

(** At most one non-terminal job per source. *)
Definition one_non_terminal_job_per_source (db : database) : Prop :=
  ∀ source, (length (non_terminal_jobs source db) ≤ 1)%nat.

End Registry.

(* ===================================================================== *)
(** * Index lifecycle and alias promotion                                 *)
(* ===================================================================== *)

Module Promotion.

(** [opensearch_indices.status]: ['created', 'active', 'deprecated',
    'deleted']. *)
Inductive index_status :=
| index_created | index_active | index_deprecated | index_deleted.

(** [alias_actions.status]: ['success', 'failed']. *)
Inductive action_status := action_success | action_failed.

#[global] Instance index_status_eq_dec : EqDecision index_status.
Proof. solve_decision. Defined.
#[global] Instance action_status_eq_dec : EqDecision action_status.
Proof. solve_decision. Defined.

(** [CREATE TABLE opensearch_indices], without timestamps and the
    shard, replica, size and metadata columns. *)
Module opensearch_indices.
Record row := Row {
  id : uuid;
  environment : string;
  region : string;
  source : string;
  index_name : string;
  alias_name : option string;
  status : index_status;
  sync_id : option uuid;
  document_count : Z
}.
End opensearch_indices.

(** [CREATE TABLE alias_actions], without [id] and [performed_at]. *)
Module alias_actions.
Record row := Row {
  environment : string;
  region : string;
  source : string;
  alias_name : string;
  old_index_name : option string;
  new_index_name : string;
  action_type : string;
  performed_by : string;
  reason : option string;
  status : action_status
}.
End alias_actions.

Record store := Store {
  jobs : list sync_jobs.row;
  indices : list opensearch_indices.row;
  actions : list alias_actions.row
}.

Inductive promotion_error :=
| PreconditionError
| PromotionFailure (reason : string).

(** The answer of the search engine to [swapAlias]: the alias now points
    at the new index, or the request failed and the alias is unchanged. *)
Inductive swap_result := swapped | swap_failed (reason : string).

Definition set_index_status (s : index_status) (i : opensearch_indices.row)
  : opensearch_indices.row :=
  {| opensearch_indices.id := opensearch_indices.id i;
     opensearch_indices.environment := opensearch_indices.environment i;
     opensearch_indices.region := opensearch_indices.region i;
     opensearch_indices.source := opensearch_indices.source i;
     opensearch_indices.index_name := opensearch_indices.index_name i;
     opensearch_indices.alias_name := opensearch_indices.alias_name i;
     opensearch_indices.status := s;
     opensearch_indices.sync_id := opensearch_indices.sync_id i;
     opensearch_indices.document_count := opensearch_indices.document_count i |}.

Definition update_status (id : uuid) (s : index_status)
    (l : list opensearch_indices.row) : list opensearch_indices.row :=
  map (λ i, if decide (opensearch_indices.id i = id)
            then set_index_status s i else i) l.

Definition find_index (id : uuid) (l : list opensearch_indices.row)
  : option opensearch_indices.row :=
  list_find (λ i, opensearch_indices.id i = id) l ≫= λ x, Some x.2.

Definition find_job (id : option uuid) (l : list sync_jobs.row)
  : option sync_jobs.row :=
  id ≫= λ k, list_find (λ j, sync_jobs.id j = k) l ≫= λ x, Some x.2.

Section WithExpectedCount.

(** The document count the originating sync job leads one to expect; the
    specification does not say from which counter it is taken. *)
Variable expected_count : sync_jobs.row → Z.

(** Step 2, the validation of the new index, and the gates before the
    repoint: the old index is the active one of the same namespace, the
    new one is freshly created, it holds documents, as many as the sync
    job expects, and a promotion to production has a prod-ready job. *)
Definition ready_to_repoint (old new : opensearch_indices.row)
    (job : sync_jobs.row) : bool :=
  bool_decide (opensearch_indices.status old = index_active)
  && bool_decide (opensearch_indices.status new = index_created)
  && bool_decide (opensearch_indices.id old ≠ opensearch_indices.id new)
  && bool_decide (opensearch_indices.environment old = opensearch_indices.environment new
                  ∧ opensearch_indices.region old = opensearch_indices.region new
                  ∧ opensearch_indices.source old = opensearch_indices.source new)
  && bool_decide (0 < opensearch_indices.document_count new)
  && bool_decide (opensearch_indices.document_count new = expected_count job)
  && (if decide (opensearch_indices.environment new = "production"%string)
      then sync_jobs.prod_ready job else true).

Definition alias_action (alias actor : string) (old new : opensearch_indices.row)
    (reason : option string) (s : action_status) : alias_actions.row :=
  {| alias_actions.environment := opensearch_indices.environment new;
     alias_actions.region := opensearch_indices.region new;
     alias_actions.source := opensearch_indices.source new;
     alias_actions.alias_name := alias;
     alias_actions.old_index_name := Some (opensearch_indices.index_name old);
     alias_actions.new_index_name := opensearch_indices.index_name new;
     alias_actions.action_type := "update";
     alias_actions.performed_by := actor;
     alias_actions.reason := reason;
     alias_actions.status := s |}.

(** Modelled from the spec: the alias promotion protocol of section 4.5,
    steps 2 to 5; it belongs to the index management API, which is not
    among the sources.  [engine] is the search engine's answer to the
    single [swapAlias] request of step 3. *)
Definition promote (alias actor : string) (oldId newId : uuid)
    (engine : swap_result) (st : store) : (promotion_error + unit) * store :=
  match find_index oldId (indices st), find_index newId (indices st) with
  | Some old, Some new =>
      match find_job (opensearch_indices.sync_id new) (jobs st) with
      | Some job =>
          if ready_to_repoint old new job then
            match engine with
            | swapped =>
                (inr (),
                 {| jobs := jobs st;
                    indices := update_status newId index_active
                                 (update_status oldId index_deprecated (indices st));
                    actions := actions st ++
                      [alias_action alias actor old new None action_success] |})
            | swap_failed reason =>
                (inl (PromotionFailure reason),
                 {| jobs := jobs st;
                    indices := indices st;
                    actions := actions st ++
                      [alias_action alias actor old new (Some reason)
                                    action_failed] |})
            end
          else (inl PreconditionError, st)
      | None => (inl PreconditionError, st)
      end
  | _, _ => (inl PreconditionError, st)
  end.

End WithExpectedCount.

(** A staging namespace with an active index, a freshly built one, and
    the sync job both came from. *)
Definition mitre_index (id : uuid) (name : string) (s : index_status)
  : opensearch_indices.row :=
  {| opensearch_indices.id := id;
     opensearch_indices.environment := "staging";
     opensearch_indices.region := "eu";
     opensearch_indices.source := "mitre";
     opensearch_indices.index_name := name;
     opensearch_indices.alias_name := Some "mitre"%string;
     opensearch_indices.status := s;
     opensearch_indices.sync_id := Some 1%N;
     opensearch_indices.document_count := 97 |}.

Definition rebuilt : store :=
  {| jobs := [set_counts {| total := 100; processed := 100; success := 97;
                            failed_count := 3 |}
                         (new_job 1 "mitre" false "scheduler")];
     indices := [mitre_index 1 "mitre-v1" index_active;
                 mitre_index 2 "mitre-v2" index_created];
     actions := [] |}.

End Promotion.

(* ===================================================================== *)
(** * [database-schema.sql]: every column, and [update_timestamp]         *)
(* ===================================================================== *)

(** [TIMESTAMP WITH TIME ZONE], in microseconds since the epoch. *)
Abbreviation timestamptz := Z.

(** A row of [sync_jobs] with every column of the table: the columns of
    [sync_jobs.row] and the four timestamps. *)
Module sync_jobs_full.
Record row := Row {
  columns : sync_jobs.row;
  created_at : timestamptz;
  updated_at : timestamptz;
  completed_at : option timestamptz;
  prod_ready_at : option timestamptz
}.
End sync_jobs_full.

(** A row of [document_statuses] with every column of the table: the
    columns of [document_statuses.row], the two timestamps, and
    [processing_time], a [NUMERIC(10, 2)] held in hundredths of a second. *)
Module document_statuses_full.
Record row := Row {
  columns : document_statuses.row;
  created_at : timestamptz;
  updated_at : timestamptz;
  processing_time : option Z
}.
End document_statuses_full.

(** The row types with an [updated_at] column, which is what
    [update_timestamp] asks of the table its trigger is attached to. *)
Class UpdatedAt (row : Type) := set_updated_at : timestamptz → row → row.

#[global] Instance sync_jobs_updated_at : UpdatedAt sync_jobs_full.row :=
  λ t r, {| sync_jobs_full.columns := sync_jobs_full.columns r;
            sync_jobs_full.created_at := sync_jobs_full.created_at r;
            sync_jobs_full.updated_at := t;
            sync_jobs_full.completed_at := sync_jobs_full.completed_at r;
            sync_jobs_full.prod_ready_at := sync_jobs_full.prod_ready_at r |}.

#[global] Instance document_statuses_updated_at :
    UpdatedAt document_statuses_full.row :=
  λ t r, {| document_statuses_full.columns := document_statuses_full.columns r;
            document_statuses_full.created_at :=
              document_statuses_full.created_at r;
            document_statuses_full.updated_at := t;
            document_statuses_full.processing_time :=
              document_statuses_full.processing_time r |}.

(** [update_timestamp()]: [NEW.updated_at = NOW(); RETURN NEW].  [NOW()]
    is the time at which the current transaction started. *)
Definition update_timestamp `{UpdatedAt row} (NOW : timestamptz) (NEW : row)
  : row := set_updated_at NOW NEW.

(** [CREATE TRIGGER update_sync_jobs_timestamp BEFORE UPDATE ON sync_jobs
    FOR EACH ROW]: an [UPDATE] stores, for each row it changes, what the
    function returns for the row it was about to store. *)
Definition update_sync_jobs_timestamp (NOW : timestamptz)
    (NEW : sync_jobs_full.row) : sync_jobs_full.row :=
  update_timestamp NOW NEW.

(** [CREATE TRIGGER update_document_statuses_timestamp BEFORE UPDATE ON
    document_statuses FOR EACH ROW] *)
Definition update_document_statuses_timestamp (NOW : timestamptz)
    (NEW : document_statuses_full.row) : document_statuses_full.row :=
  update_timestamp NOW NEW.

Record full_database := FullDatabase {
  sync_jobs_rows : list sync_jobs_full.row;
  document_statuses_rows : list document_statuses_full.row
}.

(** The columns the progress trigger reads and assigns. *)
Definition columns_of (db : full_database) : database :=
  {| sync_jobs_table := sync_jobs_full.columns <$> sync_jobs_rows db;
     document_statuses_table :=
       document_statuses_full.columns <$> document_statuses_rows db |}.

(** The [SET] clause of the trigger's [UPDATE] on a full row: it assigns
    the four counters and the progress, and no other column. *)
Definition set_counts_full (c : counts) (j : sync_jobs_full.row)
  : sync_jobs_full.row :=
  {| sync_jobs_full.columns := set_counts c (sync_jobs_full.columns j);
     sync_jobs_full.created_at := sync_jobs_full.created_at j;
     sync_jobs_full.updated_at := sync_jobs_full.updated_at j;
     sync_jobs_full.completed_at := sync_jobs_full.completed_at j;
     sync_jobs_full.prod_ready_at := sync_jobs_full.prod_ready_at j |}.

(** [update_sync_progress] on the full tables: its [UPDATE sync_jobs]
    fires [update_sync_jobs_timestamp] for the row it changes. *)
Definition update_sync_progress_full (NOW : timestamptz)
    (TG_TABLE_NAME : string) (NEW : document_statuses_full.row)
    (db : full_database) : full_database :=
  if bool_decide (TG_TABLE_NAME = "document_statuses"%string) then
    let sync := document_statuses.sync_id (document_statuses_full.columns NEW) in
    let c := select_counts sync (document_statuses_table (columns_of db)) in
    {| sync_jobs_rows :=
         map (λ j, if bool_decide (sync_jobs.id (sync_jobs_full.columns j) = sync)
                   then update_sync_jobs_timestamp NOW (set_counts_full c j)
                   else j)
             (sync_jobs_rows db);
       document_statuses_rows := document_statuses_rows db |}
  else db.

(** [update_sync_progress_trigger], once per written row. *)
Definition update_sync_progress_trigger_full (NOW : timestamptz)
    (written : list document_statuses_full.row) (db : full_database)
  : full_database :=
  foldl (λ d NEW, update_sync_progress_full NOW "document_statuses" NEW d)
        db written.

(** The statements that write [document_statuses], on full rows.  The
    rows of an [INSERT] are given with their defaults filled in. *)
Inductive full_write :=
| INSERT_INTO_document_statuses (VALUES : list document_statuses_full.row)
| UPDATE_document_statuses
    (SET : document_statuses_full.row → document_statuses_full.row)
    (WHERE : document_statuses_full.row → bool).

(** The table after the statement and its [BEFORE UPDATE] trigger, before
    the [AFTER] trigger runs. *)
Definition full_written_table (NOW : timestamptz) (w : full_write)
    (rows : list document_statuses_full.row) : list document_statuses_full.row :=
  match w with
  | INSERT_INTO_document_statuses new => rows ++ new
  | UPDATE_document_statuses set_ where_ =>
      map (λ r, if where_ r
                then update_document_statuses_timestamp NOW (set_ r)
                else r) rows
  end.

(** The rows the statement wrote, as stored. *)
Definition full_written_rows (NOW : timestamptz) (w : full_write)
    (rows : list document_statuses_full.row) : list document_statuses_full.row :=
  match w with
  | INSERT_INTO_document_statuses new => new
  | UPDATE_document_statuses set_ where_ =>
      map (λ r, update_document_statuses_timestamp NOW (set_ r))
          (filter (λ r, where_ r = true) rows)
  end.

(** Executing a write in a transaction started at [NOW]: the statement
    fails, changing nothing, when a constraint is violated; otherwise the
    [AFTER] trigger runs for every row written. *)
Definition exec_full_write (NOW : timestamptz) (w : full_write)
    (db : full_database) : option full_database :=
  let rows' := full_written_table NOW w (document_statuses_rows db) in
  if decide (constraints_hold
               (sync_jobs_full.columns <$> sync_jobs_rows db)
               (document_statuses_full.columns <$> rows')) then
    Some (update_sync_progress_trigger_full NOW
            (full_written_rows NOW w (document_statuses_rows db))
            {| sync_jobs_rows := sync_jobs_rows db;
               document_statuses_rows := rows' |})
  else None.

(** The ids of the jobs the written rows refer to. *)
Definition written_sync_ids (written : list document_statuses_full.row)
  : list uuid :=
  map (λ r, document_statuses.sync_id (document_statuses_full.columns r)) written.

(** After the trigger has run for all written rows, exactly the jobs
    those rows refer to carry the counts of the table and the time of the
    transaction. *)
Definition refreshed_full (NOW : timestamptz)
    (written rows : list document_statuses_full.row)
    (j : sync_jobs_full.row) : sync_jobs_full.row :=
  if bool_decide (sync_jobs.id (sync_jobs_full.columns j)
                  ∈ written_sync_ids written)
  then update_sync_jobs_timestamp NOW
         (set_counts_full
            (select_counts (sync_jobs.id (sync_jobs_full.columns j))
                           (document_statuses_full.columns <$> rows)) j)
  else j.

(** The columns of [sync_jobs] that neither trigger assigns. *)
Definition same_identity (j j' : sync_jobs_full.row) : Prop :=
  let c := sync_jobs_full.columns j in
  let c' := sync_jobs_full.columns j' in
  sync_jobs.id c' = sync_jobs.id c
  ∧ sync_jobs.source c' = sync_jobs.source c
  ∧ sync_jobs.status c' = sync_jobs.status c
  ∧ sync_jobs.error_message c' = sync_jobs.error_message c
  ∧ sync_jobs.fresh_start c' = sync_jobs.fresh_start c
  ∧ sync_jobs.prod_ready c' = sync_jobs.prod_ready c
  ∧ sync_jobs.created_by c' = sync_jobs.created_by c
  ∧ sync_jobs.prod_ready_by c' = sync_jobs.prod_ready_by c
  ∧ sync_jobs_full.created_at j' = sync_jobs_full.created_at j
  ∧ sync_jobs_full.completed_at j' = sync_jobs_full.completed_at j
  ∧ sync_jobs_full.prod_ready_at j' = sync_jobs_full.prod_ready_at j.

(** The statement [w] on full rows inserts the rows of [w'], or assigns
    and selects as [w'] does: neither clause reads a column that
    [document_statuses.row] leaves out. *)
Definition same_statement (w : full_write) (w' : write) : Prop :=
  match w, w' with
  | INSERT_INTO_document_statuses new, INSERT new' =>
      document_statuses_full.columns <$> new = new'
  | UPDATE_document_statuses SET WHERE, UPDATE set_ where_ =>
      (∀ r, document_statuses_full.columns (SET r)
            = set_ (document_statuses_full.columns r))
      ∧ (∀ r, WHERE r = where_ (document_statuses_full.columns r))
  | _, _ => False
  end.

(** Examples: a job and a document as created at time [t]. *)
Definition job_at (t : timestamptz) (j : sync_jobs.row) : sync_jobs_full.row :=
  {| sync_jobs_full.columns := j;
     sync_jobs_full.created_at := t; sync_jobs_full.updated_at := t;
     sync_jobs_full.completed_at := None;
     sync_jobs_full.prod_ready_at := None |}.

Definition document_at (t : timestamptz) (r : document_statuses.row)
  : document_statuses_full.row :=
  {| document_statuses_full.columns := r;
     document_statuses_full.created_at := t;
     document_statuses_full.updated_at := t;
     document_statuses_full.processing_time := None |}.

(** Two jobs created at time 100: one for [mitre] without documents, one
    for [cpr_blogs] with one embedded document that its counters do not
    show. *)
Definition two_jobs : full_database :=
  {| sync_jobs_rows := [job_at 100 (new_job 1 "mitre" false "scheduler");
                        job_at 100 (new_job 2 "cpr_blogs" false "scheduler")];
     document_statuses_rows :=
       [document_at 100 (document 20 2 "blog-1" embedded)] |}.

(* ===================================================================== *)
(** * [database-schema.sql]: deletions                                     *)
(* ===================================================================== *)

(** [DELETE FROM document_statuses WHERE ...]: no other table refers to
    the rows, and the triggers of the table fire on [INSERT] and [UPDATE]
    only. *)
Definition DELETE_FROM_document_statuses (WHERE : document_statuses.row → bool)
    (db : database) : database :=
  {| sync_jobs_table := sync_jobs_table db;
     document_statuses_table :=
       filter (λ r, WHERE r ≠ true) (document_statuses_table db) |}.

(* ===================================================================== *)
(** * [database-schema.sql]: the tables that refer to [sync_jobs]         *)
(* ===================================================================== *)

(** [CREATE TABLE job_logs], without [created_at]. *)
Module job_logs.
Record row := Row {
  id : uuid;
  sync_id : uuid;
  job_type : string;
  status : string;
  message : option string;
  error : option string
}.
End job_logs.

(** [CREATE TABLE source_configs], without the authentication, schedule,
    JSON and timestamp columns. *)
Module source_configs.
Record row := Row {
  id : uuid;
  source : string;
  url : string;
  enabled : bool;
  last_sync_id : option uuid;
  max_docs_per_sync : option Z
}.
End source_configs.

(** [CREATE TABLE index_jobs], without timestamps. *)
Module index_jobs.
Record row := Row {
  id : uuid;
  environment : string;
  region : string;
  source : string;
  job_type : string;
  status : job_status;
  error_message : option string;
  index_name : option string;
  sync_id : option uuid;
  created_by : string
}.
End index_jobs.

(** The tables of the schema that hold a reference to [sync_jobs(id)]. *)
Record schema := Schema {
  core : database;
  job_logs_table : list job_logs.row;
  source_configs_table : list source_configs.row;
  opensearch_indices_table : list Promotion.opensearch_indices.row;
  index_jobs_table : list index_jobs.row
}.

(** The five foreign keys [REFERENCES sync_jobs(id)]; a [NULL] reference
    refers to nothing. *)
Definition refers_to (ids : list uuid) (ref : option uuid) : Prop :=
  match ref with Some k => k ∈ ids | None => False end.

#[global] Instance refers_to_dec ids ref : Decision (refers_to ids ref).
Proof. destruct ref; cbn; apply _. Defined.

Definition resolves (ids : list uuid) (ref : option uuid) : Prop :=
  match ref with Some k => k ∈ ids | None => True end.

Definition referential_integrity (s : schema) : Prop :=
  let ids := map sync_jobs.id (sync_jobs_table (core s)) in
  Forall (λ r, document_statuses.sync_id r ∈ ids)
         (document_statuses_table (core s))
  ∧ Forall (λ r, job_logs.sync_id r ∈ ids) (job_logs_table s)
  ∧ Forall (λ r, resolves ids (source_configs.last_sync_id r))
           (source_configs_table s)
  ∧ Forall (λ r, resolves ids (Promotion.opensearch_indices.sync_id r))
           (opensearch_indices_table s)
  ∧ Forall (λ r, resolves ids (index_jobs.sync_id r)) (index_jobs_table s).

(** The rows that keep a deletion of the jobs [ids] from going through:
    [source_configs.last_sync_id], [opensearch_indices.sync_id] and
    [index_jobs.sync_id] are declared without [ON DELETE], so a job they
    refer to cannot be deleted. *)
Definition still_referenced (ids : list uuid) (s : schema) : Prop :=
  Exists (λ r, refers_to ids (source_configs.last_sync_id r))
         (source_configs_table s)
  ∨ Exists (λ r, refers_to ids (Promotion.opensearch_indices.sync_id r))
           (opensearch_indices_table s)
  ∨ Exists (λ r, refers_to ids (index_jobs.sync_id r)) (index_jobs_table s).

(** [DELETE FROM sync_jobs WHERE ...]: the rows of [document_statuses]
    and [job_logs] that refer to a deleted job go with it
    ([ON DELETE CASCADE]); the statement fails, deleting nothing, when
    another table still refers to one.  No trigger of the schema fires on
    a deletion. *)
Definition DELETE_FROM_sync_jobs (WHERE : sync_jobs.row → bool) (s : schema)
  : option schema :=
  let ids := map sync_jobs.id
                 (filter (λ j, WHERE j = true) (sync_jobs_table (core s))) in
  if decide (still_referenced ids s) then None
  else Some
    {| core :=
         {| sync_jobs_table :=
              filter (λ j, WHERE j ≠ true) (sync_jobs_table (core s));
            document_statuses_table :=
              filter (λ r, document_statuses.sync_id r ∉ ids)
                     (document_statuses_table (core s)) |};
       job_logs_table :=
         filter (λ r, job_logs.sync_id r ∉ ids) (job_logs_table s);
       source_configs_table := source_configs_table s;
       opensearch_indices_table := opensearch_indices_table s;
       index_jobs_table := index_jobs_table s |}.

(** A deployment with one sync job, its document and log entry, and the
    staging index built from it. *)
Definition indexed_sync : schema :=
  {| core := {| sync_jobs_table :=
                  [set_counts {| total := 1; processed := 1; success := 1;
                                 failed_count := 0 |}
                              (new_job 1 "mitre" false "scheduler")];
                document_statuses_table := [document 10 1 "T1001" embedded] |};
     job_logs_table :=
       [{| job_logs.id := 20; job_logs.sync_id := 1;
           job_logs.job_type := "source_sync"; job_logs.status := "completed";
           job_logs.message := None; job_logs.error := None |}];
     source_configs_table := [];
     opensearch_indices_table :=
       [Promotion.mitre_index 1 "mitre-v1" Promotion.index_active];
     index_jobs_table := [] |}.

(** The same without the index. *)
Definition unindexed_sync : schema :=
  {| core := core indexed_sync;
     job_logs_table := job_logs_table indexed_sync;
     source_configs_table := [];
     opensearch_indices_table := [];
     index_jobs_table := [] |}.

(* ===================================================================== *)
(** * The migration runner: what a run records and sends                  *)
(* ===================================================================== *)

(** The names recorded in [c], given those recorded at the start ([m0],
    or [rows] once the table exists) and the names [done] the loop has
    inserted so far: nothing new, or [rows] with a prefix of [done]. *)
Definition recorded_prefix (m0 : option (list string)) (rows done : list string)
    (c : pg_database) : Prop :=
  migrations c = m0
  ∨ ∃ pre, pre `prefix_of` done ∧ migrations c = Some (rows ++ pre).

(** The queries the loop sends: scripts and insertions. *)
Definition loop_query (q : query_text) : Prop :=
  match q with
  | Q_script _ | Q_INSERT_INTO_migrations _ => True
  | _ => False
  end.

(* ===================================================================== *)
(** * The job coordinator: how callers use it                             *)
(* ===================================================================== *)

Module Admission.
Import JobCoordinator.

(** A worker whose promise is pending holds its entry of [this.running]. *)
Definition slots_held (st : state) : Prop :=
  ∀ w, promises st !! w = Some Pending → running st !! w = Some w.

(** Every call made so far is suspended or has an outcome, and the
    promise a call returned belongs to a worker that call constructed. *)
Record accounted (extra : list blocked_call) (st : state) : Prop := {
  calls_accounted : ∀ c, (c < next_call st)%nat →
    c ∈ blocked_id <$> (blocked st ++ extra) ∨ is_Some (calls st !! c);
  returned_worker : ∀ c w, calls st !! c = Some (returned w) →
    ∃ i, workers st !! w = Some i ∧ spawned_by i = c
}.

(** Callers that submit one call at a time: no call of [runJob] is made
    while another is suspended. *)
Fixpoint one_at_a_time (es : list event) (st : state) : Prop :=
  match es with
  | [] => True
  | e :: es' =>
      match e with
      | call_runJob _ _ => blocked st = []
      | worker_emits _ _ => True
      end ∧ one_at_a_time es' (step st e)
  end.

(** The events in which worker [w] settles its promise. *)
Definition settles (w : worker) (e : event) : Prop :=
  match e with
  | worker_emits w' ev => w' = w ∧ handler ev ≠ None
  | call_runJob _ _ => False
  end.

End Admission.

(* ===================================================================== *)
(** * The dashboard: [DocumentSyncDashboard]                              *)
(* ===================================================================== *)

Module Dashboard.

(** A JavaScript number as the statistics use it: a count, or [NaN]. *)
Inductive number := Num (n : Z) | NaN.

(** What the statistics read of a job returned by [/api/sync/jobs]: a row
    of [sync_jobs], whose [status] is a label of the enum [job_status]. *)
Record job := Job {
  source : string;
  status : job_status
}.

(** The label of a status, as it arrives in the JSON of a job. *)
Definition label (s : job_status) : string :=
  match s with
  | job_pending => "pending"
  | job_running => "running"
  | job_completed => "completed"
  | job_failed => "failed"
  | job_cancelled => "cancelled"
  end.

(** [stats[key]++]: a missing property reads [undefined], which [++]
    turns into [NaN]; [NaN] stays [NaN]. *)
Definition increment (key : string) (stats : gmap string number)
  : gmap string number :=
  <[key := match stats !! key with
           | Some (Num n) => Num (n + 1)
           | _ => NaN
           end]> stats.

(** [const stats = { completed: 0, failed: 0, running: 0, pending: 0 }] *)
Definition initial_stats : gmap string number :=
  <["completed" := Num 0]> (<["failed" := Num 0]>
    (<["running" := Num 0]> (<["pending" := Num 0]> ∅))).

(** [data.jobs.forEach(job => { stats[job.status]++; })] *)
Definition calculate_stats (jobs : list job) : gmap string number :=
  foldl (λ stats job, increment (label (status job)) stats) initial_stats jobs.

(** The number of jobs with a given status. *)
Definition with_status (s : job_status) (jobs : list job) : nat :=
  length (filter (λ j, status j = s) jobs).

(** A property after [n] increments. *)
Definition incremented (n : nat) (v : option number) : option number :=
  match n with
  | O => v
  | S _ => match v with
           | Some (Num z) => Some (Num (z + Z.of_nat n))
           | _ => Some NaN
           end
  end.

End Dashboard.

(* ===================================================================== *)
(** * Theorems                                                            *)
(* ===================================================================== *)

(** ** The trigger *)

Lemma set_counts_id c j : sync_jobs.id (set_counts c j) = sync_jobs.id j.
Proof. reflexivity. Qed.

Lemma set_counts_twice c j : set_counts c (set_counts c j) = set_counts c j.
Proof. reflexivity. Qed.

Lemma trigger_refreshes written : ∀ jobs rows,
  update_sync_progress_trigger written
    {| sync_jobs_table := jobs; document_statuses_table := rows |}
  = {| sync_jobs_table := map (refreshed written rows) jobs;
       document_statuses_table := rows |}.
Proof.
  unfold update_sync_progress_trigger.
  induction written as [|NEW written IH]; intros jobs rows; simpl.
  - f_equal. induction jobs as [|j jobs IHj]; simpl; [done|].
    by rewrite <- IHj.
  - unfold update_sync_progress at 2.
    rewrite bool_decide_true by done. cbn [sync_jobs_table document_statuses_table].
    rewrite IH. f_equal.
    rewrite map_map. apply map_ext. intros j. unfold refreshed.
    cbn [map].
    destruct (decide (sync_jobs.id j = document_statuses.sync_id NEW)) as [Hj|Hj].
    + rewrite (bool_decide_true _ Hj), set_counts_id, <- Hj.
      rewrite (bool_decide_true (_ ∈ _ :: _)) by left.
      by case_bool_decide.
    + rewrite (bool_decide_false _ Hj).
      case_bool_decide as Hin; case_bool_decide as Hin'; try done.
      * exfalso. apply Hin'. by right.
      * exfalso. apply elem_of_cons in Hin' as [?|?]; done.
Qed.

Lemma exec_write_Some w db db' :
  exec_write w db = Some db' →
  db' = {| sync_jobs_table :=
             map (refreshed (written_rows w (document_statuses_table db))
                            (written_table w (document_statuses_table db)))
                 (sync_jobs_table db);
           document_statuses_table :=
             written_table w (document_statuses_table db) |}
  ∧ constraints_hold (sync_jobs_table db)
                     (written_table w (document_statuses_table db)).
Proof.
  unfold exec_write. case_decide as Hc; [|done].
  intros [= <-]. by rewrite trigger_refreshes.
Qed.

(** *** The stored progress *)

Lemma round_progress c :
  0 ≤ processed c → 0 ≤ total c →
  round_numeric_5_2 (progress_expr c)
  = if decide (total c = 0) then 0
    else (20000 * processed c + total c) / (2 * total c).
Proof.
  intros Hp Htot. unfold progress_expr.
  case_bool_decide as Ht.
  - rewrite decide_False by lia.
    destruct (total c) as [|t|t] eqn:Et; [lia| |lia].
    unfold round_numeric_5_2. cbn [Qdiv Qinv Qmult inject_Z Qnum Qden].
    rewrite Pos.mul_1_l, Pos.mul_1_r, !Z.mul_1_r.
    destruct (Z.eq_dec (processed c) 0) as [H0|H0].
    + rewrite H0. change (0 * 100 * 100) with 0. change (20000 * 0) with 0.
      rewrite Z.sgn_0, Z.add_0_l, Z.mul_0_l.
      symmetry. apply Z.div_small. lia.
    + rewrite Z.sgn_pos, Z.abs_eq, Z.mul_1_l by lia.
      f_equal; lia.
  - case_decide; [done|lia].
Qed.

Lemma filter_all {A} (P : A → Prop) `{!∀ x, Decision (P x)} (l : list A) :
  (∀ x, P x) → filter P l = l.
Proof.
  intros HP. induction l as [|x l IH]; [done|].
  by rewrite filter_cons_True, IH.
Qed.

Lemma COUNT_FILTER_nonneg p rows : 0 ≤ COUNT_FILTER p rows.
Proof. unfold COUNT_FILTER. lia. Qed.

Lemma COUNT_FILTER_all rows :
  COUNT_FILTER (λ _, true) rows = Z.of_nat (length rows).
Proof. unfold COUNT_FILTER. by rewrite filter_all. Qed.

Lemma COUNT_FILTER_le_total p rows :
  COUNT_FILTER p rows ≤ COUNT_FILTER (λ _, true) rows.
Proof.
  rewrite COUNT_FILTER_all. unfold COUNT_FILTER.
  apply inj_le, length_filter.
Qed.

Lemma COUNT_FILTER_Prop p (P : document_statuses.row → Prop)
    `{!∀ r, Decision (P r)} rows :
  (∀ r, p r = true ↔ P r) →
  COUNT_FILTER p rows = Z.of_nat (length (filter P rows)).
Proof.
  intros HP. unfold COUNT_FILTER. f_equal. f_equal.
  by apply list_filter_iff.
Qed.

Lemma status_processed_spec r :
  status_processed r = true
  ↔ document_statuses.status r ∉ [pending; downloading].
Proof.
  unfold status_processed. rewrite negb_true_iff, bool_decide_eq_false. done.
Qed.

Lemma status_is_spec s r :
  status_is s r = true ↔ document_statuses.status r = s.
Proof. unfold status_is. apply bool_decide_eq_true. Qed.

Lemma select_counts_range sync rows :
  let c := select_counts sync rows in
  0 ≤ processed c ≤ total c ∧ 0 ≤ success c ∧ 0 ≤ failed_count c.
Proof.
  cbn. repeat split; try apply COUNT_FILTER_nonneg.
  apply COUNT_FILTER_le_total.
Qed.

Lemma progress_range c :
  0 ≤ processed c ≤ total c →
  0 ≤ round_numeric_5_2 (progress_expr c) ≤ 10000.
Proof.
  intros [Hp Hpt]. rewrite round_progress by lia.
  case_decide as Ht; [lia|].
  assert (0 < total c) by lia.
  split.
  - apply Z.div_pos; lia.
  - apply Z.lt_succ_r, Z.div_lt_upper_bound; lia.
Qed.

(** A job found after a write that some written row refers to is the
    refreshed version of a job found before the write. *)
Lemma written_job_refreshed w db db' NEW job :
  exec_write w db = Some db' →
  NEW ∈ written_rows w (document_statuses_table db) →
  job ∈ sync_jobs_table db' →
  sync_jobs.id job = document_statuses.sync_id NEW →
  ∃ j, j ∈ sync_jobs_table db
       ∧ job = set_counts (select_counts (sync_jobs.id job)
                                         (document_statuses_table db')) j.
Proof.
  intros Hw HNEW Hjob Hid.
  apply exec_write_Some in Hw as [-> _]. cbn in *.
  apply list_elem_of_fmap in Hjob as (j & -> & Hj).
  exists j. split; [done|].
  unfold refreshed in *. case_bool_decide as Hin; [done|].
  exfalso. apply Hin. rewrite Hid. by apply list_elem_of_fmap_2.
Qed.




(** C10.  After any insert or update of [document_statuses], the
    progress of every job a written row refers to lies between 0 and
    100. *)
Theorem progress_between_0_and_100 w db db' NEW job :
  exec_write w db = Some db' →
  NEW ∈ written_rows w (document_statuses_table db) →
  job ∈ sync_jobs_table db' →
  sync_jobs.id job = document_statuses.sync_id NEW →
  (0 <= numeric_value (sync_jobs.progress job) <= 100)%Q.
Proof.
  intros Hw HNEW Hjob Hid.
  destruct (written_job_refreshed _ _ _ _ _ Hw HNEW Hjob Hid) as (j & _ & Hj).
  rewrite (f_equal sync_jobs.progress Hj).
  cbn [set_counts sync_jobs.progress].
  match goal with |- context [progress_expr ?c] =>
    pose proof (progress_range c) as Hr end.
  destruct Hr as [H0 H100]; [apply select_counts_range|].
  unfold numeric_value, Qle. cbn [Qnum Qden]. lia.
Qed.

(** ** Monotone counters *)

(** Counting along a rewriting of the rows that only ever moves rows
    into the counted class. *)
Lemma length_filter_fmap_le {A} (P Q : A → Prop)
    `{!∀ x, Decision (P x), !∀ x, Decision (Q x)} (g : A → A) (l : list A) :
  Forall (λ x, P x → Q (g x)) l →
  (length (filter P l) ≤ length (filter Q (map g l)))%nat.
Proof.
  induction 1 as [|x l Hx _ IH]; [done|].
  cbn [map]. rewrite !filter_cons.
  destruct (decide (P x)) as [HP|HP].
  - rewrite decide_True by auto. cbn. lia.
  - case_decide; cbn; lia.
Qed.

Lemma COUNT_FILTER_filter p (P : document_statuses.row → Prop)
    `{!∀ r, Decision (P r)} rows :
  COUNT_FILTER p (filter P rows)
  = Z.of_nat (length (filter (λ r, p r = true ∧ P r) rows)).
Proof. unfold COUNT_FILTER. by rewrite list_filter_filter. Qed.

Lemma edge_keeps_class old new :
  new = old ∨ document_edge old new = true →
  (old ∉ [pending; downloading] → new ∉ [pending; downloading])
  ∧ (old = embedded → new = embedded)
  ∧ (old = failed → new = failed).
Proof.
  intros [->|He]; [done|].
  destruct old, new; try discriminate He; compute_done.
Qed.

Lemma COUNT_FILTER_app p l1 l2 :
  COUNT_FILTER p (l1 ++ l2) = COUNT_FILTER p l1 + COUNT_FILTER p l2.
Proof. unfold COUNT_FILTER. rewrite filter_app, length_app. lia. Qed.

(** Writes along the state machine never lower the counts of any job. *)
Lemma select_counts_grow w rows sync :
  follows_state_machine w rows →
  counts_le (select_counts sync rows) (select_counts sync (written_table w rows)).
Proof.
  intros Hw. destruct w as [new|set_ where_]; cbn [written_table].
  - unfold counts_le, select_counts. cbn. rewrite filter_app.
    rewrite !COUNT_FILTER_app.
    split_and!;
      match goal with |- _ ≤ _ + COUNT_FILTER ?p ?l =>
        pose proof (COUNT_FILTER_nonneg p l); lia end.
  - cbn in Hw.
    assert (Hcount : ∀ p : document_statuses.row → bool,
      (∀ r, row_follows_state_machine r (set_ r) →
            p r = true → p (set_ r) = true) →
      COUNT_FILTER p (filter (λ r, document_statuses.sync_id r = sync) rows)
      ≤ COUNT_FILTER p (filter (λ r, document_statuses.sync_id r = sync)
           (map (λ r, if where_ r then set_ r else r) rows))).
    { intros p Hp. rewrite !COUNT_FILTER_filter. apply inj_le.
      apply length_filter_fmap_le.
      eapply Forall_impl; [exact Hw|]. intros r Hr [Hpr Hs]. cbn beta in *.
      destruct (where_ r) eqn:Hwhere; [|done].
      destruct (Hr eq_refl) as [Hsync Hst].
      split; [by apply Hp|congruence]. }
    unfold counts_le, select_counts. cbn.
    split_and!; apply Hcount; intros r [_ Hst];
      destruct (edge_keeps_class _ _ Hst) as (Hproc & Hemb & Hfail).
    + done.
    + rewrite !status_processed_spec. apply Hproc.
    + rewrite !status_is_spec. apply Hemb.
    + rewrite !status_is_spec. apply Hfail.
Qed.

(** A job no written row refers to keeps its rows under a write that
    follows the state machine. *)
Lemma select_counts_untouched w rows sync :
  follows_state_machine w rows →
  sync ∉ map document_statuses.sync_id (written_rows w rows) →
  select_counts sync (written_table w rows) = select_counts sync rows.
Proof.
  intros Hw Hsync. unfold select_counts.
  assert (filter (λ r, document_statuses.sync_id r = sync) (written_table w rows)
          = filter (λ r, document_statuses.sync_id r = sync) rows) as ->; [|done].
  destruct w as [new|set_ where_]; cbn [written_table written_rows] in *.
  - rewrite filter_app.
    assert (filter (λ r, document_statuses.sync_id r = sync) new = []) as ->.
    { induction new as [|r new IH]; [done|]. cbn [map] in Hsync.
      apply not_elem_of_cons in Hsync as [Hne Hrest].
      rewrite filter_cons_False by congruence. by apply IH. }
    by rewrite app_nil_r.
  - cbn in Hw. induction Hw as [|r rows Hr _ IH]; [done|].
    cbn [map]. rewrite filter_cons in Hsync.
    destruct (where_ r) eqn:Hwhere.
    + rewrite decide_True in Hsync by done. cbn [map] in Hsync.
      apply not_elem_of_cons in Hsync as [Hne Hrest].
      destruct (Hr eq_refl) as [Hs _].
      rewrite !filter_cons_False by congruence. by apply IH.
    + rewrite decide_False in Hsync by congruence.
      rewrite !filter_cons. case_decide; [f_equal|]; by apply IH.
Qed.

Lemma job_counts_set_counts c j : job_counts (set_counts c j) = c.
Proof. by destruct c. Qed.

Lemma counts_le_refl c : counts_le c c.
Proof. unfold counts_le. lia. Qed.

Lemma counts_le_trans c1 c2 c3 :
  counts_le c1 c2 → counts_le c2 c3 → counts_le c1 c3.
Proof. unfold counts_le. lia. Qed.

Lemma counters_grow_refl db : counters_grow db db.
Proof.
  apply Forall_Forall2_diag, Forall_forall. intros j _.
  split; [done|]. intros Hj. split; [done|apply counts_le_refl].
Qed.

Lemma counters_grow_trans db1 db2 db3 :
  counters_grow db1 db2 → counters_grow db2 db3 → counters_grow db1 db3.
Proof.
  unfold counters_grow. generalize (sync_jobs_table db3).
  generalize (sync_jobs_table db2).
  induction (sync_jobs_table db1) as [|j1 l1 IH]; intros l2 l3 H12 H23.
  - apply Forall2_nil_inv_l in H12 as ->.
    by apply Forall2_nil_inv_l in H23 as ->.
  - apply Forall2_cons_inv_l in H12 as (j2 & l2' & [Hid12 H12] & Hl12 & ->).
    apply Forall2_cons_inv_l in H23 as (j3 & l3' & [Hid23 H23] & Hl23 & ->).
    constructor; [|by eapply IH].
    split; [congruence|]. intros H1.
    destruct (H12 H1) as [H2 Hle12]. destruct (H23 H2) as [H3 Hle23].
    split; [done|by eapply counts_le_trans].
Qed.

(** One write along the state machine: a job whose counters agree with
    its rows keeps them in agreement, and none of them is lowered,
    whatever the counters of the other jobs are. *)
Lemma tracked_write_grows db db' : tracked_write db db' → counters_grow db db'.
Proof.
  intros (w & Hw & Hexec).
  apply exec_write_Some in Hexec as [-> _].
  unfold counters_grow, job_in_sync.
  cbn [sync_jobs_table document_statuses_table].
  apply Forall2_fmap_r, Forall_Forall2_diag, Forall_forall. intros j Hj.
  unfold compose, refreshed. case_bool_decide as Hin.
  - split; [done|]. intros Hsync.
    rewrite job_counts_set_counts, set_counts_id. split; [done|].
    rewrite Hsync. by apply select_counts_grow.
  - split; [done|]. intros Hsync. split; [|apply counts_le_refl].
    rewrite Hsync. symmetry. by apply select_counts_untouched.
Qed.

Lemma progress_between_0_and_100_witness :
  let rows := [document 10 1 "T1001" embedded; document 11 1 "T1002" pending;
               document 12 1 "T1003" pending] in
  let job := set_counts {| total := 3; processed := 1; success := 1;
                           failed_count := 0 |}
                        (new_job 1 "mitre" false "scheduler") in
  (0 <= numeric_value (sync_jobs.progress job) <= 100)%Q.
Proof.
  intros rows job.
  apply (progress_between_0_and_100 (INSERT rows) mitre_job
    {| sync_jobs_table := [job]; document_statuses_table := rows |}
    (document 10 1 "T1001" embedded) job).
  - vm_compute. reflexivity.
  - left.
  - left.
  - reflexivity.
Defined.

(** C6 (amended).  Under any sequence of inserts and of updates that keep
    every row with its job and move its status along the per-document
    state machine (or leave it unchanged), every job whose counters agree
    with its rows at the start, whatever the counters of the other jobs
    are, keeps its counters in agreement with its rows, and its total,
    processed, success and failed counters never decrease. *)
Theorem counters_never_decrease_along_state_machine db db' :
  rtc tracked_write db db' →
  Forall2 (λ j j',
       sync_jobs.id j = sync_jobs.id j'
       ∧ (job_counts j
          = select_counts (sync_jobs.id j) (document_statuses_table db) →
          job_counts j'
          = select_counts (sync_jobs.id j') (document_statuses_table db')
          ∧ sync_jobs.documents_total j ≤ sync_jobs.documents_total j'
          ∧ sync_jobs.documents_processed j ≤ sync_jobs.documents_processed j'
          ∧ sync_jobs.documents_success j ≤ sync_jobs.documents_success j'
          ∧ sync_jobs.documents_failed j ≤ sync_jobs.documents_failed j'))
    (sync_jobs_table db) (sync_jobs_table db').
Proof.
  intros Hsteps. change (counters_grow db db').
  induction Hsteps as [db|db1 db2 db3 Hstep _ IH].
  - apply counters_grow_refl.
  - eapply counters_grow_trans; [|exact IH]. by apply tracked_write_grows.
Qed.

(** C6, as stated, fails: an update that puts a failed document back to
    pending lowers the processed and failed counters of its job. *)
Lemma retried_document_lowers_counters :
  ∃ db1 db2 j1 j2,
    exec_write (INSERT [document 10 1 "T1001" failed]) mitre_job = Some db1
    ∧ exec_write (UPDATE (λ r, document (document_statuses.id r)
                                 (document_statuses.sync_id r)
                                 (document_statuses.document_id r) pending)
                         (λ r, bool_decide (document_statuses.id r = 10%N)))
                 db1 = Some db2
    ∧ sync_jobs_table db1 = [j1] ∧ sync_jobs_table db2 = [j2]
    ∧ sync_jobs.id j1 = sync_jobs.id j2
    ∧ sync_jobs.documents_processed j2 < sync_jobs.documents_processed j1
    ∧ sync_jobs.documents_failed j2 < sync_jobs.documents_failed j1.
Proof.
  do 4 eexists. split_and!; try (vm_compute; reflexivity).
Qed.

Lemma counters_never_decrease_along_state_machine_witness :
  ∃ db', counters_grow mitre_job_beside_stale_job db'
         ∧ sync_jobs.documents_total <$> sync_jobs_table db' = [1; 5].
Proof.
  eexists. split.
  - apply counters_never_decrease_along_state_machine.
    eapply rtc_once.
    exists (INSERT [document 10 1 "T1001" pending]). split; [exact I|].
    vm_compute. reflexivity.
  - reflexivity.
Defined.

Local Close Scope Z_scope.

(** ** The migration runner *)

Lemma exec_statement_migrations st s s' :
  exec_statement st s = inr s' →
  migrations (current s') = migrations (current s)
  ∧ received s' = received s.
Proof.
  destruct st as [| |run]; cbn.
  - by intros [= <-].
  - by intros [= <-].
  - destruct (run _); [done|]. by intros [= <-].
Qed.

Lemma exec_statements_migrations sql : ∀ s s',
  exec_statements sql s = inr s' →
  migrations (current s') = migrations (current s)
  ∧ received s' = received s.
Proof.
  induction sql as [|st sql IH]; intros s s'; cbn.
  - by intros [= <-].
  - destruct (exec_statement st s) as [e|s1] eqn:Hst; [done|].
    intros Hrest. apply IH in Hrest as [-> ->].
    by eapply exec_statement_migrations.
Qed.

Lemma end_of_query_current s : current (end_of_query true s) = current s.
Proof. unfold end_of_query. by destruct (in_transaction s). Qed.

Lemma end_of_query_received ok s : received (end_of_query ok s) = received s.
Proof. unfold end_of_query. by destruct (in_transaction s), ok. Qed.

Lemma query_script_ok sql s s' :
  query_script sql s = (inr (), s') →
  migrations (current s') = migrations (current s)
  ∧ received s' = received s ++ [Q_script sql].
Proof.
  unfold query_script.
  destruct (exec_statements _ _) as [[e s1]|s1] eqn:Hsql; [done|].
  intros [= <-]. apply exec_statements_migrations in Hsql as [Hm Hr].
  by rewrite end_of_query_current, end_of_query_received.
Qed.

Lemma query_INSERT_ok file s s' :
  query_INSERT_INTO_migrations file s = (inr (), s') →
  ∃ rows, migrations (current s) = Some rows
    ∧ migrations (current s') = Some (rows ++ [file])
    ∧ received s' = received s ++ [Q_INSERT_INTO_migrations file].
Proof.
  unfold query_INSERT_INTO_migrations. cbn.
  destruct (migrations (current s)) as [rows|] eqn:Hm; [|done].
  intros [= <-]. exists rows.
  by rewrite end_of_query_current, end_of_query_received.
Qed.

(** What a successful pass of the loop leaves behind. *)
Lemma apply_migrations_ok files : ∀ s s' rows,
  apply_migrations files s = (inr (), s') →
  migrations (current s) = Some rows →
  migrations (current s') = Some (rows ++ files.*1)
  ∧ received s' = received s ++ queries_for files.
Proof.
  induction files as [|[file sql] files IH]; intros s s' rows.
  - intros [= <-] Hm. by rewrite !app_nil_r.
  - cbn [apply_migrations]. unfold mbind, async_bind.
    destruct (query_script sql s) as [[e|[]] s1] eqn:H1; [done|].
    destruct (query_INSERT_INTO_migrations file s1) as [[e|[]] s2] eqn:H2; [done|].
    intros Hrest Hm.
    apply query_script_ok in H1 as [Hm1 Hr1].
    apply query_INSERT_ok in H2 as (rows1 & Hm1' & Hm2 & Hr2).
    assert (rows1 = rows) as -> by congruence.
    destruct (IH _ _ _ Hrest Hm2) as [Hm' Hr'].
    rewrite Hm', Hr', Hr2, Hr1. cbn. by rewrite <- !app_assoc.
Qed.

Lemma filter_not_yet_applied rows dir :
  filter (λ f : string * list statement,
            f.1 ∉ (list_to_set rows : gset string)) dir
  = not_yet_applied rows dir.
Proof. apply list_filter_iff. intros f. by rewrite elem_of_list_to_set. Qed.

(** A successful run, seen from the database it started on. *)
Lemma runMigrations_ok dir db s :
  runMigrations dir db = (inr (), s) →
  let rows := default [] (migrations db) in
  let new := not_yet_applied rows dir in
  received s = [Q_BEGIN; Q_CREATE_TABLE_IF_NOT_EXISTS_migrations;
                Q_SELECT_name_FROM_migrations]
               ++ queries_for new ++ [Q_COMMIT]
  ∧ migrations (committed s) = Some (rows ++ new.*1)
  ∧ current s = committed s
  ∧ in_transaction s = false.
Proof.
  intros Hrun rows new. unfold runMigrations in Hrun.
  destruct (runMigrations_try dir (connect db)) as [[e|[]] s'] eqn:Htry; [done|].
  injection Hrun as <-.
  unfold runMigrations_try, mbind, async_bind in Htry. cbn in Htry.
  rewrite filter_not_yet_applied in Htry. fold rows new in Htry.
  destruct (apply_migrations new _) as [[e|[]] s1] eqn:Happly; [done|].
  injection Htry as <-.
  eapply apply_migrations_ok in Happly as [Hm Hr]; [|reflexivity].
  cbn. rewrite Hm, Hr. done.
Qed.

Lemma filter_none {A} (P : A → Prop) `{!∀ x, Decision (P x)} (l : list A) :
  Forall (λ x, ¬ P x) l → filter P l = [].
Proof.
  induction 1 as [|x l Hx _ IH]; [done|]. by rewrite filter_cons_False.
Qed.

Lemma NoDup_occurs_once {A} `{!EqDecision A} (x : A) (l : list A) :
  NoDup l → x ∈ l → length (filter (λ y, y = x) l) = 1%nat.
Proof.
  induction 1 as [|y l Hy Hl IH]; intros Hx.
  - by apply elem_of_nil in Hx.
  - rewrite filter_cons. destruct (decide (y = x)) as [->|Hne].
    + rewrite filter_none; [done|].
      apply Forall_forall. by intros z Hz ->.
    + apply elem_of_cons in Hx as [->|Hx]; [done|]. by apply IH.
Qed.

Lemma not_yet_applied_names rows dir f :
  f ∈ fst <$> not_yet_applied rows dir → f ∉ rows.
Proof.
  intros ([file sql] & -> & Hf)%list_elem_of_fmap.
  by apply list_elem_of_filter in Hf as [Hnew Hdir].
Qed.

Lemma NoDup_names_not_yet_applied rows dir :
  NoDup dir.*1 → NoDup (not_yet_applied rows dir).*1.
Proof.
  intros Hdir. eapply sublist_NoDup; [exact Hdir|].
  apply fmap_sublist, sublist_filter.
Qed.

(** Once the names of a run are recorded, nothing is left to apply. *)
Lemma nothing_left rows dir :
  not_yet_applied (rows ++ (not_yet_applied rows dir).*1) dir = [].
Proof.
  apply filter_none, Forall_forall. intros f Hf Hnew. apply Hnew.
  destruct (decide (f.1 ∈ rows)) as [Hold|Hold].
  - apply elem_of_app. by left.
  - apply elem_of_app. right. apply (list_elem_of_fmap_2 fst).
    by apply list_elem_of_filter.
Qed.

(** *** What the scripts of a run compute *)

Lemma table_effect_app sql1 sql2 t :
  table_effect (sql1 ++ sql2) t
  = match table_effect sql1 t with
    | inl e => inl e
    | inr t' => table_effect sql2 t'
    end.
Proof.
  revert t. induction sql1 as [|[| |run] sql1 IH]; intros t; cbn; try done.
  destruct (run t); [done|apply IH].
Qed.

(** The statements of a script act on the tables as [table_effect] says,
    and on nothing else the runner reads. *)
Lemma exec_statements_effect sql : ∀ s t m,
  tables (current s) = t → migrations (current s) = m →
  match exec_statements sql s, table_effect sql t with
  | inr s', inr t' => tables (current s') = t' ∧ migrations (current s') = m
  | inl (e, _), inl e' => e = e'
  | _, _ => False
  end.
Proof.
  induction sql as [|st sql IH]; intros s t m Ht Hm; [done|].
  destruct st as [| |run]; cbn.
  - by apply (IH (pg_begin s)).
  - by apply (IH (pg_commit s)).
  - rewrite Ht. destruct (run t) as [e|t']; [done|].
    by apply (IH (set_current _ s)).
Qed.

Lemma query_script_effect sql s t m :
  tables (current s) = t → migrations (current s) = m →
  match query_script sql s, table_effect sql t with
  | (inr _, s'), inr t' => tables (current s') = t' ∧ migrations (current s') = m
  | (inl e, _), inl e' => e = e'
  | _, _ => False
  end.
Proof.
  intros Ht Hm. unfold query_script.
  pose proof (exec_statements_effect sql (log_query (Q_script sql) s) t m Ht Hm)
    as H.
  destruct (exec_statements sql _) as [[e s1]|s1],
           (table_effect sql t) as [e'|t']; try done.
  by rewrite end_of_query_current.
Qed.

Lemma query_INSERT_effect file s rows :
  migrations (current s) = Some rows →
  ∃ s', query_INSERT_INTO_migrations file s = (inr (), s')
        ∧ tables (current s') = tables (current s)
        ∧ migrations (current s') = Some (rows ++ [file]).
Proof.
  intros Hm. unfold query_INSERT_INTO_migrations. cbn [log_query current].
  rewrite Hm. eexists. split; [reflexivity|].
  by rewrite end_of_query_current.
Qed.

Lemma apply_migrations_effect files : ∀ s rows,
  migrations (current s) = Some rows →
  match apply_migrations files s,
        table_effect (concat (map snd files)) (tables (current s)) with
  | (inr _, s'), inr t =>
      tables (current s') = t
      ∧ migrations (current s') = Some (rows ++ files.*1)
  | (inl e, _), inl e' => e = e'
  | _, _ => False
  end.
Proof.
  induction files as [|[file sql] files IH]; intros s rows Hm.
  - cbn. by rewrite app_nil_r.
  - cbn [apply_migrations map concat snd].
    rewrite table_effect_app. unfold mbind at 1 2, async_bind.
    pose proof (query_script_effect sql s _ _ eq_refl Hm) as H1.
    destruct (query_script sql s) as [[e|[]] s1],
             (table_effect sql (tables (current s))) as [e'|t]; try done.
    destruct H1 as [Ht Hm1].
    destruct (query_INSERT_effect file s1 rows Hm1) as (s2 & -> & Ht2 & Hm2).
    specialize (IH s2 _ Hm2). rewrite Ht2, Ht in IH.
    destruct (apply_migrations files s2) as [[e|[]] s3],
             (table_effect (concat (map snd files)) t) as [e'|t']; try done.
    destruct IH as [IH1 IH2]. split; [done|].
    rewrite IH2. cbn. by rewrite <- app_assoc.
Qed.

(** The tables a successful run commits are those the pending scripts
    compute, executed one after the other on the tables found. *)
Lemma runMigrations_tables dir db s :
  runMigrations dir db = (inr (), s) →
  let new := not_yet_applied (default [] (migrations db)) dir in
  table_effect (concat (map snd new)) (tables db) = inr (tables (committed s)).
Proof.
  intros Hrun new. unfold runMigrations in Hrun.
  destruct (runMigrations_try dir (connect db)) as [[e|[]] s'] eqn:Htry; [done|].
  injection Hrun as <-.
  unfold runMigrations_try, mbind, async_bind in Htry. cbn in Htry.
  rewrite filter_not_yet_applied in Htry. fold new in Htry.
  match type of Htry with context [apply_migrations new ?s0] =>
    pose proof (apply_migrations_effect new s0 _ eq_refl) as H;
    destruct (apply_migrations new s0) as [[e|[]] s1]; [done|] end.
  injection Htry as <-. cbn in H |- *.
  destruct (table_effect _ _) as [e|t]; [done|]. by destruct H as [-> _].
Qed.

(** C5.  A run that succeeds has sent, between [BEGIN ... SELECT] and
    [COMMIT], exactly the scripts of the files whose names were not yet
    recorded, in directory order, each followed by the insertion of its
    name; the tables it commits are those these scripts compute, executed
    in that order on the tables found, and no other script has run; the
    recorded names are the old ones followed by the new ones, each new one
    occurring once; and a second run over the same directory succeeds,
    sends no script and no insertion, and leaves the database, its tables
    included, as it is. *)
Theorem runMigrations_applies_once_and_is_idempotent dir db s :
  NoDup dir.*1 →
  runMigrations dir db = (inr (), s) →
  let rows := default [] (migrations db) in
  let new := not_yet_applied rows dir in
  received s = [Q_BEGIN; Q_CREATE_TABLE_IF_NOT_EXISTS_migrations;
                Q_SELECT_name_FROM_migrations]
               ++ queries_for new ++ [Q_COMMIT]
  ∧ table_effect (concat (map snd new)) (tables db)
    = inr (tables (committed s))
  ∧ migrations (committed s) = Some (rows ++ new.*1)
  ∧ (∀ file, file ∈ (new.*1) →
       length (filter (λ name, name = file) (rows ++ new.*1)) = 1%nat)
  ∧ ∃ s2, runMigrations dir (committed s) = (inr (), s2)
          ∧ committed s2 = committed s
          ∧ received s2 = [Q_BEGIN; Q_CREATE_TABLE_IF_NOT_EXISTS_migrations;
                           Q_SELECT_name_FROM_migrations; Q_COMMIT].
Proof.
  intros Hdir Hrun rows new.
  destruct (runMigrations_ok _ _ _ Hrun) as (Hrecv & Hm & Hcur & Htx).
  pose proof (runMigrations_tables _ _ _ Hrun) as Htables.
  fold rows new in Hrecv, Hm, Htables.
  split_and!; try done.
  - intros file Hfile. rewrite filter_app, length_app.
    pose proof (not_yet_applied_names _ _ _ Hfile) as Hold.
    rewrite filter_none.
    + cbn. apply NoDup_occurs_once; [|done].
      by apply NoDup_names_not_yet_applied.
    + apply Forall_forall. by intros name Hname ->.
  - destruct (committed s) as [t m] eqn:Hc. cbn in Hm. subst m.
    eexists. split; [|split].
    + unfold runMigrations, runMigrations_try, mbind, async_bind. cbn.
      rewrite filter_not_yet_applied. unfold new. rewrite nothing_left.
      cbn. reflexivity.
    + reflexivity.
    + reflexivity.
Qed.

(** *** Atomicity of a batch *)

Lemma exec_statements_plain sql : ∀ s,
  plain sql →
  match exec_statements sql s with
  | inl (_, s') | inr s' =>
      committed s' = committed s ∧ in_transaction s' = in_transaction s
  end.
Proof.
  induction sql as [|st sql IH]; intros s Hplain; [done|].
  apply Forall_cons in Hplain as [Hst Hplain]. cbn.
  destruct st as [| |run]; try done. cbn.
  destruct (run _) as [e|t]; [done|].
  specialize (IH (set_current {| tables := t;
                                 migrations := migrations (current s) |} s) Hplain).
  by destruct (exec_statements sql _) as [[e s']|s'].
Qed.

Lemma end_of_query_in_transaction ok s :
  in_transaction s = true → end_of_query ok s = s.
Proof. unfold end_of_query. by intros ->. Qed.

(** Inside the runner's transaction block, plain scripts leave the
    committed content alone, whether the loop completes or throws. *)
Lemma apply_migrations_plain files : ∀ s,
  Forall (λ f, plain f.2) files →
  in_transaction s = true →
  let r := apply_migrations files s in
  committed r.2 = committed s ∧ in_transaction r.2 = true.
Proof.
  induction files as [|[file sql] files IH]; intros s Hplain Htx; [done|].
  apply Forall_cons in Hplain as [Hsql Hplain]. cbn in Hsql.
  cbn [apply_migrations]. unfold mbind, async_bind.
  assert (H1 : committed (query_script sql s).2 = committed s
               ∧ in_transaction (query_script sql s).2 = true).
  { unfold query_script.
    pose proof (exec_statements_plain sql (log_query (Q_script sql) s) Hsql) as H.
    destruct (exec_statements sql _) as [[e s1]|s1]; destruct H as [Hc Hi];
      cbn; rewrite end_of_query_in_transaction; cbn in *; by rewrite ?Hc, ?Hi. }
  destruct (query_script sql s) as [[e|[]] s1]; [done|].
  destruct H1 as [Hc1 Htx1]. cbn in Hc1, Htx1.
  assert (H2 : committed (query_INSERT_INTO_migrations file s1).2 = committed s1
               ∧ in_transaction (query_INSERT_INTO_migrations file s1).2 = true).
  { unfold query_INSERT_INTO_migrations. cbn.
    destruct (migrations (current s1)); cbn;
      by rewrite end_of_query_in_transaction. }
  destruct (query_INSERT_INTO_migrations file s1) as [[e|[]] s2].
  - cbn in *. destruct H2. split; congruence.
  - destruct H2 as [Hc2 Htx2]. cbn in Hc2, Htx2.
    destruct (IH s2 Hplain Htx2) as [Hc Hi]. split; [congruence|done].
Qed.

(** X13. Without transaction control in the scripts, a failed run leaves the
    database exactly as it found it. *)
Lemma runMigrations_plain_batch_is_atomic dir db e s :
  Forall (λ f, plain f.2) dir →
  runMigrations dir db = (inl e, s) →
  committed s = db ∧ current s = db.
Proof.
  intros Hplain. unfold runMigrations.
  destruct (runMigrations_try dir (connect db)) as [[e'|[]] s'] eqn:Htry; [|done].
  intros [= <- <-]. cbn.
  enough (committed s' = db) by done.
  unfold runMigrations_try, mbind, async_bind in Htry. cbn in Htry.
  match type of Htry with context [apply_migrations ?fs ?s0] =>
    pose proof (apply_migrations_plain fs s0) as H;
    destruct (apply_migrations fs s0) as [[e1|[]] s1] end.
  - injection Htry as <- <-. apply H; [|done].
    apply Forall_forall. intros f [_ Hf]%list_elem_of_filter.
    rewrite Forall_forall in Hplain. by apply Hplain.
  - done.
Qed.

(** C4, evaluated where the code departs from it.  With the shipped
    [001_initial.sql], which wraps itself in [BEGIN ... COMMIT], followed
    by a migration that fails, the run throws the error, yet the first
    migration stays applied and recorded: its [COMMIT] ended the runner's
    transaction, so the final [ROLLBACK] has nothing left to undo. *)
Theorem runMigrations_failed_batch_is_partly_applied :
  let r := runMigrations shipped_then_broken fresh_database in
  r.1 = inl "syntax error"%string
  ∧ migrations (committed r.2) = Some ["001_initial.sql"%string]
  ∧ elements (tables (committed r.2)) = ["sync_jobs"; "documents"]%string
  ∧ committed r.2 ≠ fresh_database.
Proof.
  cbv zeta. split_and!; try (vm_compute; reflexivity).
  intros H. apply (f_equal migrations) in H. vm_compute in H. discriminate.
Qed.

Lemma fulfilled_run (r : js_result unit) : r.1 = inr () → r = (inr (), r.2).
Proof. destruct r as [[e|[]] s]; by intros [=]. Qed.

Lemma runMigrations_applies_once_and_is_idempotent_witness :
  let dir := [("001_initial.sql"%string, initial_sql)] in
  let s := (runMigrations dir fresh_database).2 in
  table_effect initial_sql ∅ = inr (tables (committed s))
  ∧ migrations (committed s) = Some ["001_initial.sql"%string]
  ∧ ∃ s2, runMigrations dir (committed s) = (inr (), s2)
          ∧ committed s2 = committed s.
Proof.
  intros dir s.
  destruct (runMigrations_applies_once_and_is_idempotent dir fresh_database s)
    as (_ & Ht & Hm & _ & s2 & Hrun & Hsame & _).
  - apply NoDup_singleton.
  - apply fulfilled_run. vm_compute. reflexivity.
  - split; [|split; [exact Hm|]].
    + cbn [map concat snd not_yet_applied] in Ht. exact Ht.
    + exists s2. by split.
Defined.

Import JobCoordinator.

Lemma consistent_constructor n : consistent [] (constructor n).
Proof.
  split; cbn; try done.
  - intros w [? H]. by rewrite lookup_empty in H.
  - intros c [? H]. by rewrite lookup_empty in H.
  - constructor.
Qed.

Lemma spawn_consistent extra c type data st :
  consistent extra st →
  c < next_call st →
  calls st !! c = None →
  c ∉ blocked_id <$> (blocked st ++ extra) →
  consistent extra (spawn c type data st).
Proof.
  intros [Hp Hw Hc Hb Hd Hr Hrace] Hlt Hnone Hfresh.
  assert (Hnew : promises st !! next_worker st = None).
  { destruct (promises st !! next_worker st) eqn:E; [|done].
    assert (next_worker st < next_worker st) by eauto. lia. }
  split; cbn.
  - intros w [o Ho]. apply lookup_insert_Some in Ho as [[<- _]|[_ Ho]]; [lia|].
    assert (w < next_worker st) by eauto. lia.
  - intros w i Hi. apply lookup_insert_Some in Hi as [[<- <-]|[Hne Hi]]; cbn.
    + rewrite lookup_insert_eq. split; [lia|done].
    + destruct (Hw _ _ Hi) as [? Hcall]. split; [lia|].
      rewrite lookup_insert_ne; [done|]. intros Heq. congruence.
  - intros c' [o Ho]. apply lookup_insert_Some in Ho as [[<- _]|[_ Ho]]; eauto.
  - rewrite Forall_forall in Hb. apply Forall_forall. intros b Hin.
    destruct (Hb b Hin) as [? ?].
    split; [done|]. rewrite lookup_insert_ne; [done|].
    intros ->. apply Hfresh. by apply list_elem_of_fmap_2.
  - done.
  - intros w p Hwp. apply lookup_insert_Some in Hwp as [[<- <-]|[Hne Hwp]].
    + by rewrite lookup_insert_eq.
    + rewrite lookup_insert_ne by done. by apply Hr.
  - eapply Forall_impl; [exact Hrace|]. cbn. intros b Hb'.
    eapply Forall_impl; [exact Hb'|]. cbn. intros p Hp'.
    rewrite lookup_insert_ne; [done|]. intros Heq. congruence.
Qed.

Lemma runJob_consistent type data st :
  consistent [] st → consistent [] (runJob type data st).
Proof.
  intros Hst.
  assert (Hfresh : calls st !! next_call st = None).
  { destruct (calls st !! next_call st) eqn:E; [|done].
    assert (next_call st < next_call st) by (eapply calls_known; eauto). lia. }
  assert (Hids : next_call st ∉ blocked_id <$> (blocked st ++ [])).
  { intros (b & Hb & Hin)%list_elem_of_fmap.
    pose proof (blocked_known _ _ Hst) as Hk. rewrite Forall_forall in Hk.
    apply Hk in Hin. lia. }
  assert (Hbump : consistent []
    {| maxParallel := maxParallel st; running := running st;
       promises := promises st; workers := workers st;
       blocked := blocked st; calls := calls st;
       next_worker := next_worker st; next_call := S (next_call st) |}).
  { destruct Hst as [Hp Hw Hc Hb Hd Hr Hrace]. split; cbn; try done.
    - intros c Hc'. apply Hc in Hc'. lia.
    - eapply Forall_impl; [exact Hb|]. cbn. intros b [? ?]. split; [lia|done]. }
  unfold runJob. cbn. case_decide as Hfull.
  - destruct Hst as [Hp Hw Hc Hb Hd Hr Hrace]. rewrite app_nil_r in *.
    split; cbn; rewrite ?app_nil_r; try done.
    + intros c Hc'. apply Hc in Hc'. lia.
    + apply Forall_app. split.
      * eapply Forall_impl; [exact Hb|]. cbn. intros b [? ?]. split; [lia|done].
      * apply Forall_singleton. cbn. split; [lia|done].
    + rewrite fmap_app. apply NoDup_app. split_and!; [done| |].
      * intros c Hc1 Hc2. apply list_elem_of_singleton in Hc2 as ->. done.
      * cbn. apply NoDup_singleton.
    + apply Forall_app. split; [done|]. apply Forall_singleton. cbn.
      apply Forall_forall. intros p ([w p'] & -> & Hwp)%list_elem_of_fmap.
      apply elem_of_map_to_list in Hwp. cbn.
      by destruct (Hr _ _ Hwp) as [-> ?].
  - apply spawn_consistent; cbn; try done. lia.
Qed.

Lemma resume_consistent outcome b rest st :
  consistent (b :: rest) st → consistent rest (resume outcome st b).
Proof.
  intros Hst.
  pose proof (blocked_known _ _ Hst) as Hb.
  pose proof (blocked_distinct _ _ Hst) as Hd.
  apply Forall_app in Hb as [Hb1 Hb2].
  apply Forall_cons in Hb2 as [[Hlt Hnone] Hb2].
  rewrite fmap_app, fmap_cons in Hd.
  apply NoDup_app in Hd as (Hd1 & Hd12 & Hd2).
  apply NoDup_cons in Hd2 as [Hd2 Hd3].
  assert (Hfresh : blocked_id b ∉ blocked_id <$> (blocked st ++ rest)).
  { rewrite fmap_app. intros [Hin|Hin]%elem_of_app; [|done].
    eapply Hd12; [exact Hin|left]. }
  assert (Hdrop : consistent rest st).
  { destruct Hst as [Hp Hw Hc _ _ Hr Hrace]. split; try done.
    - apply Forall_app. by split.
    - rewrite fmap_app. apply NoDup_app. split_and!; [done| |done].
      intros c Hc1 Hc2. eapply Hd12; [exact Hc1|by right]. }
  assert (Hspawn : consistent rest
            (spawn (blocked_id b) (blocked_jobType b) (blocked_data b) st))
    by by apply spawn_consistent.
  destruct outcome as [|v|e]; cbn [resume]; [done|done|].
  destruct Hdrop as [Hp Hw Hc Hb Hd Hr Hrace]. split; cbn; try done.
  - intros w i Hi. destruct (Hw _ _ Hi) as [? Hcall]. split; [done|].
    rewrite lookup_insert_ne; [done|]. intros Heq. congruence.
  - intros c [o Ho]. apply lookup_insert_Some in Ho as [[<- _]|[_ Ho]]; eauto.
  - rewrite Forall_forall in Hb. apply Forall_forall. intros b' Hin.
    destruct (Hb b' Hin) as [? ?].
    split; [done|]. rewrite lookup_insert_ne; [done|].
    intros Heq. apply Hfresh. rewrite Heq. by apply list_elem_of_fmap_2.
Qed.

Lemma foldl_resume_consistent outcome woken : ∀ st,
  consistent woken st → consistent [] (foldl (resume outcome) st woken).
Proof.
  induction woken as [|b rest IH]; intros st Hst; [done|].
  cbn. by apply IH, resume_consistent.
Qed.

Lemma settled_consistent w outcome st :
  consistent [] st →
  promises st !! w = Some Pending →
  consistent (filter (λ b, w ∈ race b) (blocked st)) (settled w outcome st).
Proof.
  intros Hst Hpending.
  destruct Hst as [Hp Hw Hc Hb Hd Hr Hrace]. rewrite app_nil_r in *.
  assert (Hperm : filter (λ b, w ∉ race b) (blocked st)
                  ++ filter (λ b, w ∈ race b) (blocked st) ≡ₚ blocked st).
  { rewrite Permutation_app_comm. apply filter_app_complement. }
  split; cbn.
  - intros w' [o Ho]. apply lookup_insert_Some in Ho as [[<- _]|[_ Ho]]; eauto.
  - done.
  - done.
  - by rewrite Hperm.
  - by rewrite Hperm.
  - intros w' p Hwp. apply lookup_delete_Some in Hwp as [Hne Hwp].
    rewrite lookup_insert_ne by done. by apply Hr.
  - rewrite Forall_forall in Hrace. apply Forall_forall.
    intros b [Hnot Hin]%list_elem_of_filter.
    specialize (Hrace b Hin). rewrite Forall_forall in Hrace.
    apply Forall_forall. intros p Hpin.
    rewrite lookup_insert_ne; [by apply Hrace|]. by intros <-.
Qed.

Lemma settle_consistent w outcome st :
  consistent [] st →
  promises st !! w = Some Pending →
  consistent [] (settle w outcome st).
Proof.
  intros Hst Hpending. unfold settle.
  apply foldl_resume_consistent. revert Hst Hpending. apply settled_consistent.
Qed.

Lemma emit_consistent w ev st :
  consistent [] st → consistent [] (emit w ev st).
Proof.
  intros Hst. unfold emit.
  destruct (promises st !! w) as [[| |]|] eqn:Hw; try done.
  destruct (handler ev); [|done]. by apply settle_consistent.
Qed.

Lemma step_consistent st e : consistent [] st → consistent [] (step st e).
Proof.
  destruct e; [apply runJob_consistent|apply emit_consistent].
Qed.

Lemma run_consistent es : ∀ st, consistent [] st → consistent [] (run es st).
Proof.
  unfold run. induction es as [|e es IH]; intros st Hst; [done|].
  cbn. by apply IH, step_consistent.
Qed.

(** *** What later turns of the event loop cannot undo *)

Lemma extends_refl st : extends st st.
Proof. by split. Qed.

Lemma extends_trans st1 st2 st3 :
  extends st1 st2 → extends st2 st3 → extends st1 st3.
Proof. intros [????] [????]. split; eauto. Qed.

Lemma spawn_extends extra c type data st :
  consistent extra st → calls st !! c = None →
  extends st (spawn c type data st).
Proof.
  intros Hst Hnone.
  assert (Hnew : promises st !! next_worker st = None).
  { destruct (promises st !! next_worker st) eqn:E; [|done].
    assert (next_worker st < next_worker st)
      by (eapply promises_known; eauto). lia. }
  assert (Hneww : workers st !! next_worker st = None).
  { destruct (workers st !! next_worker st) as [i|] eqn:E; [|done].
    destruct (workers_known _ _ Hst _ _ E) as [Hlt _]. lia. }
  split; cbn.
  - intros c' o Ho. rewrite lookup_insert_ne; [done|]. congruence.
  - intros p o Ho _. rewrite lookup_insert_ne; [done|]. congruence.
  - intros p [o Ho]. rewrite lookup_insert_ne; [eauto|]. congruence.
  - intros w i Hi. rewrite lookup_insert_ne; [done|]. congruence.
Qed.

Lemma resume_extends outcome b rest st :
  consistent (b :: rest) st → extends st (resume outcome st b).
Proof.
  intros Hst.
  pose proof (blocked_known _ _ Hst) as Hb.
  apply Forall_app in Hb as [_ Hb]. apply Forall_cons in Hb as [[_ Hnone] _].
  assert (extends st (spawn (blocked_id b) (blocked_jobType b)
                            (blocked_data b) st))
    by by eapply spawn_extends.
  destruct outcome as [|v|e]; cbn [resume]; [done|done|].
  split; cbn; try done.
  intros c o Ho. rewrite lookup_insert_ne; [done|]. congruence.
Qed.

Lemma foldl_resume_extends outcome woken : ∀ st,
  consistent woken st → extends st (foldl (resume outcome) st woken).
Proof.
  induction woken as [|b rest IH]; intros st Hst; [apply extends_refl|].
  cbn. eapply extends_trans; [by eapply resume_extends|].
  by apply IH, resume_consistent.
Qed.

Lemma settled_extends w outcome st :
  promises st !! w = Some Pending → extends st (settled w outcome st).
Proof.
  intros Hw. split; cbn; try done.
  - intros p o Ho Hne. rewrite lookup_insert_ne; [done|]. congruence.
  - intros p [o Ho]. destruct (decide (w = p)) as [->|Hne].
    + rewrite lookup_insert_eq. eauto.
    + rewrite lookup_insert_ne; eauto.
Qed.

Lemma settle_extends w outcome st :
  consistent [] st → promises st !! w = Some Pending →
  extends st (settle w outcome st).
Proof.
  intros Hst Hw. eapply extends_trans; [by apply settled_extends|].
  by apply foldl_resume_extends, settled_consistent.
Qed.

Lemma step_extends st e : consistent [] st → extends st (step st e).
Proof.
  intros Hst. destruct e as [type data|w ev]; cbn [step].
  - unfold runJob. cbn. case_decide; [by split|].
    assert (Hfresh : calls st !! next_call st = None).
    { destruct (calls st !! next_call st) eqn:E; [|done].
      assert (next_call st < next_call st) by (eapply calls_known; eauto). lia. }
    match goal with |- extends _ (spawn _ _ _ ?st1) =>
      apply (extends_trans _ st1); [by split|] end.
    eapply (spawn_extends []); [|done].
    destruct Hst as [Hp Hw Hc Hb Hd Hr Hrace]. split; cbn; try done.
    + intros c Hc'. apply Hc in Hc'. lia.
    + eapply Forall_impl; [exact Hb|]. cbn. intros b [? ?]. split; [lia|done].
  - unfold emit.
    destruct (promises st !! w) as [[| |]|] eqn:Hw; try apply extends_refl.
    destruct (handler ev); [|apply extends_refl]. by apply settle_extends.
Qed.

Lemma run_extends es : ∀ st, consistent [] st → extends st (run es st).
Proof.
  unfold run. induction es as [|e es IH]; intros st Hst; [apply extends_refl|].
  cbn. eapply extends_trans; [by apply step_extends|].
  by apply IH, step_consistent.
Qed.

Lemma handler_settles ev outcome : handler ev = Some outcome → outcome ≠ Pending.
Proof.
  destruct ev as [v|e|code]; cbn; [by intros [= <-]..|].
  case_decide; by intros [= <-].
Qed.

(** The promise of the worker carries the outcome once it is settled. *)
Lemma settle_outcome w outcome st :
  consistent [] st → promises st !! w = Some Pending → outcome ≠ Pending →
  promises (settle w outcome st) !! w = Some outcome.
Proof.
  intros Hst Hw Hne. unfold settle.
  eapply settled_kept; [by apply foldl_resume_extends, settled_consistent| |done].
  cbn. by rewrite lookup_insert_eq.
Qed.

(** *** No retry: a call constructs at most one worker *)

Lemma workers_of_spec c st w :
  w ∈ workers_of c st ↔ ∃ i, workers st !! w = Some i ∧ spawned_by i = c.
Proof.
  unfold workers_of. rewrite list_elem_of_fmap. split.
  - intros ([w' i] & -> & Hin). cbn.
    apply elem_of_map_to_list, map_lookup_filter_Some in Hin as [? ?]. eauto.
  - intros (i & Hi & Hc). exists (w, i). split; [done|].
    by apply elem_of_map_to_list, map_lookup_filter_Some.
Qed.

Lemma workers_of_NoDup c st : NoDup (workers_of c st).
Proof. apply NoDup_fst_map_to_list. Qed.

Lemma at_most_one_worker c st :
  consistent [] st → length (workers_of c st) ≤ 1.
Proof.
  intros Hst. pose proof (workers_of_NoDup c st) as Hd.
  assert (Hsame : ∀ w1 w2, w1 ∈ workers_of c st → w2 ∈ workers_of c st → w1 = w2).
  { intros w1 w2 (i1 & H1 & Hc1)%workers_of_spec (i2 & H2 & Hc2)%workers_of_spec.
    destruct (workers_known _ _ Hst _ _ H1) as [_ Hr1].
    destruct (workers_known _ _ Hst _ _ H2) as [_ Hr2]. congruence. }
  destruct (workers_of c st) as [|w1 [|w2 l]]; cbn; [lia|lia|].
  exfalso. apply NoDup_cons in Hd as [Hnot _]. apply Hnot.
  rewrite (Hsame w1 w2); [left|left|right; left].
Qed.

Lemma no_worker_after_throw c e st :
  consistent [] st → calls st !! c = Some (threw e) → workers_of c st = [].
Proof.
  intros Hst Hc. destruct (workers_of c st) as [|w l] eqn:E; [done|].
  assert (w ∈ workers_of c st) as (i & Hi & Hci)%workers_of_spec
    by (rewrite E; left).
  destruct (workers_known _ _ Hst _ _ Hi) as [_ Hr]. congruence.
Qed.

Lemma reachable_consistent n es : consistent [] (run es (constructor n)).
Proof. apply run_consistent, consistent_constructor. Qed.

Lemma run_app es1 es2 st : run (es1 ++ es2) st = run es2 (run es1 st).
Proof. unfold run. apply foldl_app. Qed.

(** A rejecting event on a pending promise is what the submitter sees
    from then on. *)
Lemma rejection_surfaces st c w ev e es' :
  consistent [] st →
  calls st !! c = Some (returned w) →
  promises st !! w = Some Pending →
  handler ev = Some (Rejected e) →
  submitter_sees c (run es' (emit w ev st)) = Rejected e.
Proof.
  intros Hst Hc Hw Hev.
  assert (Hemit : emit w ev st = settle w (Rejected e) st)
    by (unfold emit; by rewrite Hw, Hev).
  assert (Hst' : consistent [] (emit w ev st)) by by apply emit_consistent.
  pose proof (run_extends es' _ Hst') as Hext.
  assert (H1 : calls (run es' (emit w ev st)) !! c = Some (returned w)).
  { apply (calls_kept _ _ Hext). rewrite Hemit.
    by apply (calls_kept _ _ (settle_extends w (Rejected e) st Hst Hw)). }
  assert (H2 : promises (run es' (emit w ev st)) !! w = Some (Rejected e)).
  { apply (settled_kept _ _ Hext); [|done].
    rewrite Hemit. by apply settle_outcome. }
  unfold submitter_sees. by rewrite H1, H2.
Qed.

(** C8 (amended).  For a worker whose promise is still pending, a
    non-zero exit rejects the promise the submitter holds with
    [Error("Worker stopped with code <code>")] and an ['error'] event
    rejects it with the error emitted; nothing that happens later changes
    that; and no call of [runJob] ever constructs more than one worker. *)
Theorem failure_of_pending_worker_rejects n es c w :
  let st := run es (constructor n) in
  calls st !! c = Some (returned w) →
  promises st !! w = Some Pending →
  (∀ code es', code ≠ 0%Z →
     submitter_sees c (run es' (emit w (exit code) st))
     = Rejected (Error ("Worker stopped with code " +:+ pretty code)))
  ∧ (∀ e es',
       submitter_sees c (run es' (emit w (error e) st)) = Rejected (thrown e))
  ∧ (∀ c' es', length (workers_of c' (run es' st)) ≤ 1).
Proof.
  intros st Hc Hw. pose proof (reachable_consistent n es) as Hst.
  split_and!.
  - intros code es' Hcode. apply rejection_surfaces; try done.
    cbn. by rewrite decide_True.
  - intros e es'. by apply rejection_surfaces.
  - intros c' es'. by apply at_most_one_worker, run_consistent.
Qed.

Lemma failure_of_pending_worker_rejects_witness :
  submitter_sees 0 (run [call_runJob "docs_embeddings" "batch-1";
                         worker_emits 0 (exit 1)] exported)
  = Rejected (Error "Worker stopped with code 1").
Proof.
  destruct (failure_of_pending_worker_rejects 3
              [call_runJob "docs_embeddings" "batch-1"] 0 0 eq_refl eq_refl)
    as (Hexit & _ & _).
  exact (Hexit 1%Z [] ltac:(discriminate)).
Defined.

(** C8, as stated, fails: a worker that posts a message and then exits
    with code 1 leaves the submitter with a fulfilled promise. *)
Lemma exit_after_message_is_not_surfaced :
  submitter_sees 0 (run [call_runJob "docs_embeddings" "batch-1";
                         worker_emits 0 (message "partial result");
                         worker_emits 0 (exit 1)] exported)
  = Fulfilled "partial result".
Proof. vm_compute. reflexivity. Qed.

(** C3, evaluated where the code departs from it.  On the exported
    coordinator (ceiling 3), five submissions leave three workers in
    flight and two calls suspended; when one worker completes, both
    suspended calls resume and four workers are in flight. *)
Theorem ceiling_exceeded_after_one_completion :
  let st := run five_submissions exported in
  let st' := emit 0 (message "done") st in
  maxParallel st = 3 ∧ in_flight st = 3 ∧ length (blocked st) = 2
  ∧ in_flight st' = 4 ∧ length (blocked st') = 0.
Proof. vm_compute. done. Qed.

(** *** A call suspended at the ceiling *)

Lemma spawn_blocked c type data st :
  blocked (spawn c type data st) = blocked st.
Proof. done. Qed.

Lemma resume_blocked outcome st b : blocked (resume outcome st b) = blocked st.
Proof. by destruct outcome. Qed.

Lemma foldl_resume_blocked outcome woken : ∀ st,
  blocked (foldl (resume outcome) st woken) = blocked st.
Proof.
  induction woken as [|b rest IH]; intros st; [done|].
  cbn. by rewrite IH, resume_blocked.
Qed.

(** A suspended call stays suspended over a turn of the event loop that
    leaves the promises of its race pending. *)
Lemma blocked_persists st e b :
  consistent [] st →
  b ∈ blocked st →
  Forall (λ p, promises (step st e) !! p = Some Pending) (race b) →
  b ∈ blocked (step st e).
Proof.
  intros Hst Hb Hrace. destruct e as [type data|w ev]; cbn [step] in *.
  - unfold runJob. cbn. case_decide; cbn.
    + apply elem_of_app. by left.
    + done.
  - unfold emit in *.
    destruct (promises st !! w) as [[| |]|] eqn:Hw; try done.
    destruct (handler ev) as [outcome|] eqn:Hev; [|done].
    unfold settle. rewrite foldl_resume_blocked. cbn.
    apply list_elem_of_filter. split; [|done].
    intros Hin. rewrite Forall_forall in Hrace. specialize (Hrace w Hin).
    rewrite settle_outcome in Hrace by eauto using handler_settles.
    injection Hrace as ->. by apply handler_settles in Hev.
Qed.

Lemma blocked_persists_run es : ∀ st b,
  consistent [] st →
  b ∈ blocked st →
  Forall (λ p, promises (run es st) !! p = Some Pending) (race b) →
  b ∈ blocked (run es st).
Proof.
  induction es as [|e es IH]; intros st b Hst Hb Hrace; [done|].
  change (run (e :: es) st) with (run es (step st e)) in *.
  pose proof (step_consistent st e Hst) as Hst'.
  apply IH; [done| |done].
  apply blocked_persists; [done..|].
  rewrite Forall_forall in Hrace. apply Forall_forall. intros p Hp.
  pose proof (races_pending _ _ Hst) as Hpend.
  rewrite Forall_forall in Hpend. specialize (Hpend b Hb).
  rewrite Forall_forall in Hpend. specialize (Hpend p Hp).
  destruct (promises_kept _ _ (step_extends st e Hst) p) as [o Ho]; [eauto|].
  destruct (decide (o = Pending)) as [->|Hne]; [done|].
  pose proof (settled_kept _ _ (run_extends es _ Hst') _ _ Ho Hne) as Hend.
  rewrite (Hrace p Hp) in Hend. congruence.
Qed.

(** When the race rejects, every call it wakes throws the error. *)
Lemma foldl_resume_rejected e woken : ∀ st b,
  consistent woken st →
  b ∈ woken →
  calls (foldl (resume (Rejected e)) st woken) !! blocked_id b
  = Some (threw e).
Proof.
  induction woken as [|b' rest IH]; intros st b Hst Hb.
  - by apply elem_of_nil in Hb.
  - cbn [foldl]. pose proof (resume_consistent (Rejected e) _ _ _ Hst) as Hst'.
    apply elem_of_cons in Hb as [->|Hb]; [|by apply IH].
    apply (calls_kept _ _ (foldl_resume_extends _ _ _ Hst')).
    cbn. by rewrite lookup_insert_eq.
Qed.

(** C9.  A call of [runJob] made at the ceiling, while worker [w] is in
    flight: if no worker that was in flight at the call has settled when
    [w] fails with error [e], the call rejects with [e], and no worker is
    ever constructed for it. *)
Theorem blocked_call_rejects_with_unrelated_failure
    n es type data es' w ev e :
  let st := run es (constructor n) in
  let c := next_call st in
  maxParallel st ≤ in_flight st →
  is_Some (running st !! w) →
  let st1 := run es' (runJob type data st) in
  (∀ w', is_Some (running st !! w') → promises st1 !! w' = Some Pending) →
  handler ev = Some (Rejected e) →
  let st2 := emit w ev st1 in
  ∀ es'', submitter_sees c (run es'' st2) = Rejected e
          ∧ workers_of c (run es'' st2) = [].
Proof.
  intros st c Hfull [p Hw] st1 Hpending Hev st2 es''.
  pose proof (reachable_consistent n es) as Hst. fold st in Hst.
  pose proof (runJob_consistent type data st Hst) as Hst0.
  pose proof (run_consistent es' _ Hst0) as Hst1. fold st1 in Hst1.
  set (b := {| blocked_id := c; blocked_jobType := type; blocked_data := data;
               race := (map_to_list (running st)).*2 |}).
  assert (Hrace : ∀ q, q ∈ race b → is_Some (running st !! q)).
  { intros q ([w' q'] & -> & Hin)%list_elem_of_fmap.
    apply elem_of_map_to_list in Hin.
    destruct (running_pending _ _ Hst _ _ Hin) as [-> _]. eauto. }
  assert (Hwin : w ∈ race b).
  { destruct (running_pending _ _ Hst _ _ Hw) as [-> _].
    apply list_elem_of_fmap. exists (w, w). split; [done|].
    by apply elem_of_map_to_list. }
  assert (Hb0 : b ∈ blocked (runJob type data st)).
  { unfold runJob. cbn. rewrite decide_True by done. cbn.
    apply elem_of_app. right. left. }
  assert (Hb1 : b ∈ blocked st1).
  { apply blocked_persists_run; [done..|].
    apply Forall_forall. intros q Hq. apply Hpending. by apply Hrace. }
  assert (Hthrew : calls st2 !! c = Some (threw e)).
  { unfold st2, emit. rewrite (Hpending w) by eauto. rewrite Hev.
    unfold settle.
    apply (foldl_resume_rejected e _ _ b).
    - apply settled_consistent; [done|]. apply Hpending. eauto.
    - by apply list_elem_of_filter. }
  assert (Hst2 : consistent [] st2) by by apply emit_consistent.
  pose proof (run_consistent es'' _ Hst2) as Hend.
  pose proof (calls_kept _ _ (run_extends es'' _ Hst2) _ _ Hthrew) as Hc.
  split.
  - unfold submitter_sees. by rewrite Hc.
  - by eapply no_worker_after_throw.
Qed.

Lemma blocked_call_rejects_with_unrelated_failure_witness :
  let st := run [call_runJob "docs_embeddings" "batch-1"] (constructor 1) in
  let st1 := run [] (runJob "docs_embeddings" "batch-2" st) in
  let st2 := emit 0 (error "out of memory") st1 in
  submitter_sees (next_call st) (run [] st2) = Rejected (thrown "out of memory")
  ∧ workers_of (next_call st) (run [] st2) = [].
Proof.
  refine (blocked_call_rejects_with_unrelated_failure 1
            [call_runJob "docs_embeddings" "batch-1"]
            "docs_embeddings" "batch-2" [] 0 (error "out of memory")
            (thrown "out of memory") _ _ _ _ []).
  - vm_compute. lia.
  - exists 0. reflexivity.
  - intros w' [p Hp].
    pose proof (reachable_consistent 1
                  [call_runJob "docs_embeddings" "batch-1"]) as Hst.
    destruct (running_pending _ _ Hst _ _ Hp) as [_ Hpend].
    assert (w' < 1) as Hlt by (eapply (promises_known _ _ Hst); eauto).
    destruct w' as [|w']; [reflexivity|lia].
  - reflexivity.
Defined.

Import Registry.

Lemma length_filter_fmap_same {A} (P : A → Prop) `{!∀ x, Decision (P x)}
    (g : A → A) (l : list A) :
  (∀ x, P (g x) ↔ P x) → length (filter P (map g l)) = length (filter P l).
Proof.
  intros Hg. induction l as [|x l IH]; [done|].
  cbn [map]. rewrite !filter_cons.
  destruct (decide (P x)) as [HP|HP].
  - rewrite decide_True by by apply Hg. cbn. by rewrite IH.
  - rewrite decide_False by by rewrite Hg. done.
Qed.

Lemma length_filter_head {A} (P : A → Prop) `{!∀ x, Decision (P x)}
    (x x' : A) (l l' : list A) :
  (P x' → P x) → length (filter P l') ≤ length (filter P l) →
  length (filter P (x' :: l')) ≤ length (filter P (x :: l)).
Proof.
  intros Hx Hl. rewrite !filter_cons.
  destruct (decide (P x')) as [HP|HP].
  - rewrite decide_True by auto. cbn. lia.
  - case_decide; cbn; lia.
Qed.

Lemma valid_transition_from_non_terminal old new :
  valid_transition old new = true → non_terminal old = true.
Proof. by destruct old, new. Qed.

Lemma transition_rows_non_terminal docs jobId new message source : ∀ jobs jobs',
  transition_rows docs jobId new message jobs = inr jobs' →
  length (filter (λ j, sync_jobs.source j = source
                       ∧ non_terminal (sync_jobs.status j) = true) jobs')
  ≤ length (filter (λ j, sync_jobs.source j = source
                         ∧ non_terminal (sync_jobs.status j) = true) jobs).
Proof.
  induction jobs as [|j jobs IH]; intros jobs'; cbn [transition_rows]; [done|].
  case_decide as Hid.
  - destruct (transition_allowed docs j new message) eqn:Hok; [|done].
    intros [= <-]. apply length_filter_head; [|done].
    cbn. intros [Hs _]. split; [done|].
    unfold transition_allowed in Hok.
    apply andb_true_iff in Hok as [Hok _]. apply andb_true_iff in Hok as [Hok _].
    by apply valid_transition_from_non_terminal in Hok.
  - destruct (transition_rows docs jobId new message jobs) as [e|rest]; [done|].
    intros [= <-]. apply length_filter_head; [done|]. by apply IH.
Qed.

Lemma serve_keeps_one_per_source db r :
  one_non_terminal_job_per_source db →
  one_non_terminal_job_per_source (serve db r).
Proof.
  intros Hdb source. specialize (Hdb source).
  destruct r as [src freshStart creator|jobId new message|w]; cbn [serve].
  - unfold createJob. case_bool_decide as Hex; [done|].
    unfold non_terminal_jobs in *. cbn. rewrite filter_app, length_app.
    rewrite filter_cons, filter_nil. cbn.
    destruct (decide (src = source)) as [->|Hne].
    + rewrite decide_True by done. cbn.
      assert (filter (λ j, sync_jobs.source j = source
                           ∧ non_terminal (sync_jobs.status j) = true)
                     (sync_jobs_table db) = []) as ->; [|done].
      apply filter_none. by apply Forall_Exists_neg.
    + rewrite decide_False by (intros [? _]; congruence). cbn. lia.
  - unfold transition.
    destruct (transition_rows _ _ _ _ _) as [e|jobs'] eqn:Ht; [done|].
    unfold non_terminal_jobs in *. cbn.
    pose proof (transition_rows_non_terminal _ _ _ _ source _ _ Ht). lia.
  - destruct (exec_write w db) as [db'|] eqn:Hw; [|done]. cbn.
    apply exec_write_Some in Hw as [-> _].
    unfold non_terminal_jobs in *. cbn.
    rewrite length_filter_fmap_same; [done|].
    intros j. unfold refreshed. by case_bool_decide.
Qed.

(** C7.  After any sequence of requests served one after the other, at
    most one non-terminal job exists per source, and [createJob] for a
    source that has a non-terminal job fails with [ConflictError]. *)
Theorem createJob_conflict_and_one_non_terminal_job
    (rs : list request) source freshStart creator :
  let db := foldl serve no_jobs rs in
  one_non_terminal_job_per_source db
  ∧ (non_terminal_jobs source db ≠ [] →
     createJob source freshStart creator db = inl ConflictError).
Proof.
  intros db. split.
  - subst db. induction rs as [|r rs IH] using rev_ind.
    + intros src. cbn. lia.
    + rewrite foldl_app. cbn. by apply serve_keeps_one_per_source.
  - intros Hsome. unfold createJob. rewrite bool_decide_true; [done|].
    destruct (non_terminal_jobs source db) as [|j l] eqn:E; [done|].
    apply Exists_exists. exists j.
    assert (j ∈ non_terminal_jobs source db) as Hj by (rewrite E; left).
    by apply list_elem_of_filter in Hj as [? ?].
Qed.

Lemma createJob_conflict_and_one_non_terminal_job_witness :
  createJob "mitre" true "operator"
    (foldl serve no_jobs [req_createJob "mitre" false "scheduler";
                        req_transition 1 job_running None])
  = inl ConflictError.
Proof.
  apply (createJob_conflict_and_one_non_terminal_job
           [req_createJob "mitre" false "scheduler";
            req_transition 1 job_running None]).
  vm_compute. discriminate.
Defined.

Import Promotion.
Local Open Scope Z_scope.

(** C2.  When the repoint of step 3 fails, the promotion reports
    [PromotionFailure] with the reason, the indices are unchanged (the old
    one still active, the new one still created), and exactly one alias
    action is appended, with status failed and that reason. *)
Theorem failed_repoint_leaves_indices_alone
    (expected_count : sync_jobs.row → Z) alias actor oldId newId reason st
    old new job :
  find_index oldId (indices st) = Some old →
  find_index newId (indices st) = Some new →
  find_job (opensearch_indices.sync_id new) (jobs st) = Some job →
  ready_to_repoint expected_count old new job = true →
  let r := promote expected_count alias actor oldId newId
                   (swap_failed reason) st in
  r.1 = inl (PromotionFailure reason)
  ∧ indices r.2 = indices st
  ∧ jobs r.2 = jobs st
  ∧ opensearch_indices.status <$> find_index oldId (indices r.2)
    = Some index_active
  ∧ opensearch_indices.status <$> find_index newId (indices r.2)
    = Some index_created
  ∧ ∃ a, actions r.2 = actions st ++ [a]
         ∧ alias_actions.status a = action_failed
         ∧ alias_actions.reason a = Some reason
         ∧ alias_actions.old_index_name a
           = Some (opensearch_indices.index_name old)
         ∧ alias_actions.new_index_name a = opensearch_indices.index_name new.
Proof.
  intros Hold Hnew Hjob Hready r. subst r. unfold promote.
  rewrite Hold, Hnew, Hjob, Hready. cbn [fst snd indices jobs actions].
  unfold ready_to_repoint in Hready.
  repeat (apply andb_true_iff in Hready as [Hready ?]).
  apply bool_decide_eq_true in Hready.
  match goal with H : bool_decide (_ = index_created) = true |- _ =>
    apply bool_decide_eq_true in H; rename H into Hcreated end.
  split_and!; try done.
  - by rewrite Hold; cbn; rewrite Hready.
  - by rewrite Hnew; cbn; rewrite Hcreated.
  - eexists. split_and!; done.
Qed.

Lemma failed_repoint_leaves_indices_alone_witness :
  let r := promote sync_jobs.documents_success "mitre" "operator" 1 2
                   (swap_failed "cluster_block_exception") rebuilt in
  r.1 = inl (PromotionFailure "cluster_block_exception")
  ∧ indices r.2 = indices rebuilt.
Proof.
  destruct (failed_repoint_leaves_indices_alone
              sync_jobs.documents_success "mitre" "operator" 1 2
              "cluster_block_exception" rebuilt
              (mitre_index 1 "mitre-v1" index_active)
              (mitre_index 2 "mitre-v2" index_created)
              (set_counts {| total := 100; processed := 100; success := 97;
                             failed_count := 3 |}
                          (new_job 1 "mitre" false "scheduler")))
    as (H1 & H2 & _); [reflexivity..|].
  by split.
Defined.

(* ===================================================================== *)
(** * Further properties of the code                                      *)
(* ===================================================================== *)

(** ** More on the trigger *)

(** Disjoint classes inside a class. *)
Lemma length_filter_disjoint {A} (P Q R : A → Prop)
    `{!∀ x, Decision (P x), !∀ x, Decision (Q x), !∀ x, Decision (R x)}
    (l : list A) :
  (∀ x, P x → R x) → (∀ x, Q x → R x) → (∀ x, P x → Q x → False) →
  (length (filter P l) + length (filter Q l) ≤ length (filter R l))%nat.
Proof.
  intros HP HQ HPQ. induction l as [|x l IH]; [done|].
  rewrite !filter_cons.
  destruct (decide (P x)) as [Hp|Hp], (decide (Q x)) as [Hq|Hq].
  - destruct (HPQ x Hp Hq).
  - rewrite decide_True by auto. cbn. lia.
  - rewrite decide_True by auto. cbn. lia.
  - case_decide; cbn; lia.
Qed.

Lemma select_counts_order sync rows :
  let c := select_counts sync rows in
  0 ≤ success c ∧ 0 ≤ failed_count c
  ∧ success c + failed_count c ≤ processed c ∧ processed c ≤ total c.
Proof.
  cbn. split_and!; try apply COUNT_FILTER_nonneg.
  - unfold COUNT_FILTER. rewrite <- Nat2Z.inj_add. apply inj_le.
    apply length_filter_disjoint.
    + intros r. rewrite status_is_spec, status_processed_spec.
      intros ->. compute_done.
    + intros r. rewrite status_is_spec, status_processed_spec.
      intros ->. compute_done.
    + intros r. rewrite !status_is_spec. congruence.
  - apply COUNT_FILTER_le_total.
Qed.

(** The written row is among the rows of its job. *)
Lemma written_row_counted w db db' NEW :
  exec_write w db = Some db' →
  NEW ∈ written_rows w (document_statuses_table db) →
  1 ≤ total (select_counts (document_statuses.sync_id NEW)
                           (document_statuses_table db')).
Proof.
  intros Hw HNEW.
  apply exec_write_Some in Hw as [-> _]. cbn [document_statuses_table].
  unfold select_counts. cbn [total]. rewrite COUNT_FILTER_all.
  assert (NEW ∈ filter (λ r, document_statuses.sync_id r
                             = document_statuses.sync_id NEW)
                  (written_table w (document_statuses_table db))) as Hin.
  { apply list_elem_of_filter. split; [done|].
    destruct w as [new|set_ where_]; cbn [written_rows written_table] in *.
    - apply elem_of_app. by right.
    - apply list_elem_of_fmap in HNEW as (r & -> & Hr).
      apply list_elem_of_filter in Hr as [Hwhere Hr].
      apply list_elem_of_fmap. exists r. by rewrite Hwhere. }
  destruct (filter _ _) as [|x l]; [by apply elem_of_nil in Hin|].
  cbn [length]. lia.
Qed.

(** X2. After a write that succeeds, a job one of whose documents was
    written has ordered counters: success and failed are not negative,
    success + failed <= processed <= total, and total is at least 1. *)
Theorem counters_are_ordered w db db' NEW job :
  exec_write w db = Some db' →
  NEW ∈ written_rows w (document_statuses_table db) →
  job ∈ sync_jobs_table db' →
  sync_jobs.id job = document_statuses.sync_id NEW →
  0 ≤ sync_jobs.documents_success job
  ∧ 0 ≤ sync_jobs.documents_failed job
  ∧ sync_jobs.documents_success job + sync_jobs.documents_failed job
    ≤ sync_jobs.documents_processed job
  ∧ sync_jobs.documents_processed job ≤ sync_jobs.documents_total job
  ∧ 1 ≤ sync_jobs.documents_total job.
Proof.
  intros Hw HNEW Hjob Hid.
  destruct (written_job_refreshed _ _ _ _ _ Hw HNEW Hjob Hid) as (j & _ & Hj).
  rewrite (f_equal sync_jobs.documents_total Hj),
    (f_equal sync_jobs.documents_processed Hj),
    (f_equal sync_jobs.documents_success Hj),
    (f_equal sync_jobs.documents_failed Hj).
  cbn [set_counts sync_jobs.documents_total sync_jobs.documents_processed
       sync_jobs.documents_success sync_jobs.documents_failed].
  pose proof (select_counts_order (sync_jobs.id job)
                (document_statuses_table db')) as (? & ? & ? & ?).
  pose proof (written_row_counted _ _ _ _ Hw HNEW) as Hpos.
  rewrite <- Hid in Hpos. by split_and!.
Qed.

Lemma counters_are_ordered_witness :
  let rows := [document 10 1 "T1001" embedded; document 11 1 "T1002" failed;
               document 12 1 "T1003" pending] in
  let job := set_counts {| total := 3; processed := 2; success := 1;
                           failed_count := 1 |}
                        (new_job 1 "mitre" false "scheduler") in
  sync_jobs.documents_success job + sync_jobs.documents_failed job
  ≤ sync_jobs.documents_processed job.
Proof.
  intros rows job.
  refine (proj1 (proj2 (proj2 (counters_are_ordered (INSERT rows) mitre_job
    {| sync_jobs_table := [job]; document_statuses_table := rows |}
    (document 10 1 "T1001" embedded) job _ _ _ _)))).
  - vm_compute. reflexivity.
  - left.
  - left.
  - reflexivity.
Defined.

Lemma length_filter_all_iff {A} (P : A → Prop) `{!∀ x, Decision (P x)}
    (l : list A) :
  length (filter P l) = length l ↔ Forall P l.
Proof.
  induction l as [|x l IH]; [done|]. rewrite filter_cons, Forall_cons.
  pose proof (length_filter P l).
  destruct (decide (P x)); cbn; split.
  - intros [= Hl]. split; [done|by apply IH].
  - intros [_ Hl]. f_equal. by apply IH.
  - lia.
  - by intros [? _].
Qed.

Lemma length_filter_none_iff {A} (P : A → Prop) `{!∀ x, Decision (P x)}
    (l : list A) :
  length (filter P l) = 0%nat ↔ Forall (λ x, ¬ P x) l.
Proof.
  induction l as [|x l IH]; [done|]. rewrite filter_cons, Forall_cons.
  destruct (decide (P x)); cbn; split.
  - done.
  - by intros [? _].
  - intros Hl. split; [done|by apply IH].
  - intros [_ Hl]. by apply IH.
Qed.

(** X3. For a job with fewer than 20000 documents, one of which was just
    written, the progress column reads 100.00 exactly when none of its
    rows has status pending or downloading (the processed counter equals
    the total), and 0.00 exactly when all of them have (the processed
    counter is 0).  The statuses from downloaded on all count as
    processed. *)
Theorem progress_extremes_below_20000_rows w db db' NEW job :
  exec_write w db = Some db' →
  NEW ∈ written_rows w (document_statuses_table db) →
  job ∈ sync_jobs_table db' →
  sync_jobs.id job = document_statuses.sync_id NEW →
  sync_jobs.documents_total job < 20000 →
  let rows := filter (λ r, document_statuses.sync_id r = sync_jobs.id job)
                     (document_statuses_table db') in
  (sync_jobs.progress job = 10000
   ↔ sync_jobs.documents_processed job = sync_jobs.documents_total job)
  ∧ (sync_jobs.progress job = 0 ↔ sync_jobs.documents_processed job = 0)
  ∧ (sync_jobs.progress job = 10000
     ↔ Forall (λ r, document_statuses.status r ∉ [pending; downloading]) rows)
  ∧ (sync_jobs.progress job = 0
     ↔ Forall (λ r, document_statuses.status r ∈ [pending; downloading]) rows).
Proof.
  intros Hw HNEW Hjob Hid Hsmall rows.
  destruct (written_job_refreshed _ _ _ _ _ Hw HNEW Hjob Hid) as (j & _ & Hj).
  rewrite (f_equal sync_jobs.documents_total Hj) in Hsmall.
  rewrite (f_equal sync_jobs.documents_total Hj),
    (f_equal sync_jobs.documents_processed Hj),
    (f_equal sync_jobs.progress Hj).
  cbn [set_counts sync_jobs.documents_total sync_jobs.documents_processed
       sync_jobs.progress] in *.
  pose proof (select_counts_order (sync_jobs.id job)
                (document_statuses_table db')) as (_ & _ & _ & Hle).
  pose proof (select_counts_range (sync_jobs.id job)
                (document_statuses_table db')) as ([Hp _] & _).
  pose proof (written_row_counted _ _ _ _ Hw HNEW) as Hpos.
  rewrite <- Hid in Hpos.
  assert (Ht : total (select_counts (sync_jobs.id job)
                        (document_statuses_table db'))
               = Z.of_nat (length rows)) by apply COUNT_FILTER_all.
  assert (Hpr : processed (select_counts (sync_jobs.id job)
                             (document_statuses_table db'))
                = Z.of_nat (length (filter
                    (λ r, document_statuses.status r ∉ [pending; downloading])
                    rows)))
    by apply COUNT_FILTER_Prop, status_processed_spec.
  set (c := select_counts (sync_jobs.id job) (document_statuses_table db')) in *.
  rewrite round_progress by lia.
  rewrite decide_False by lia.
  pose proof (Z.mul_div_le (20000 * processed c + total c) (2 * total c)).
  pose proof (Z.mul_succ_div_gt (20000 * processed c + total c) (2 * total c)).
  assert (H100 : (20000 * processed c + total c) / (2 * total c) = 10000
                 ↔ processed c = total c).
  { split; intros Heq.
    - rewrite Heq in *. lia.
    - rewrite Heq. symmetry. apply Z.div_unique with (r := total c); lia. }
  assert (Hnone : (20000 * processed c + total c) / (2 * total c) = 0
                  ↔ processed c = 0).
  { split; intros Heq.
    - rewrite Heq in *. lia.
    - rewrite Heq. apply Z.div_small. lia. }
  split_and!; [done|done| |].
  - by rewrite H100, Hpr, Ht, <- length_filter_all_iff, Nat2Z.inj_iff.
  - rewrite Hnone, Hpr.
    assert (Forall (λ r, document_statuses.status r ∈ [pending; downloading]) rows
            ↔ Forall (λ r, ¬ (document_statuses.status r
                              ∉ [pending; downloading])) rows) as ->.
    { apply Forall_proper; [|done]. intros r. split; [tauto|].
      intros Hnn. by destruct (decide (document_statuses.status r
                                      ∈ [pending; downloading])). }
    rewrite <- length_filter_none_iff.
    change 0 with (Z.of_nat 0). by rewrite Nat2Z.inj_iff.
Qed.

Lemma progress_extremes_below_20000_rows_witness :
  let rows := [document 10 1 "T1001" downloaded;
               document 11 1 "T1002" sanitizing] in
  let job := set_counts {| total := 2; processed := 2; success := 0;
                           failed_count := 0 |}
                        (new_job 1 "mitre" false "scheduler") in
  sync_jobs.progress job = 10000
  ↔ Forall (λ r, document_statuses.status r ∉ [pending; downloading]) rows.
Proof.
  intros rows job.
  refine (proj1 (proj2 (proj2
    (progress_extremes_below_20000_rows (INSERT rows) mitre_job
       {| sync_jobs_table := [job]; document_statuses_table := rows |}
       (document 10 1 "T1001" downloaded) job _ _ _ _ _)))).
  - vm_compute. reflexivity.
  - left.
  - left.
  - reflexivity.
  - reflexivity.
Defined.

(** X4. The bound of 20000 is sharp: with 20000 rows or more, all but one
    of them processed, the expression of the trigger already rounds to
    100.00 in a [NUMERIC(5,2)] column. *)
Theorem progress_reads_100_one_row_early c :
  20000 ≤ total c →
  processed c = total c - 1 →
  round_numeric_5_2 (progress_expr c) = 10000.
Proof.
  intros Ht Hp. rewrite round_progress by lia. rewrite decide_False by lia.
  symmetry. apply Z.div_unique with (r := 20000 * processed c + total c
                                          - 20000 * total c); lia.
Qed.

Lemma progress_reads_100_one_row_early_witness :
  round_numeric_5_2
    (progress_expr {| total := 20000; processed := 19999; success := 19999;
                      failed_count := 0 |}) = 10000.
Proof.
  apply progress_reads_100_one_row_early; cbn; lia.
Defined.

Lemma length_filter_filter_le {A} (P Q : A → Prop)
    `{!∀ x, Decision (P x), !∀ x, Decision (Q x)} (l : list A) :
  (length (filter P (filter Q l)) ≤ length (filter P l))%nat.
Proof.
  induction l as [|z l IH]; [done|]. rewrite (filter_cons Q).
  destruct (decide (Q z)); rewrite !(filter_cons P);
    destruct (decide (P z)); cbn; lia.
Qed.

Lemma length_filter_remove {A} (P Q : A → Prop)
    `{!∀ x, Decision (P x), !∀ x, Decision (Q x)} (l : list A) x :
  x ∈ l → P x → ¬ Q x →
  (length (filter P (filter Q l)) < length (filter P l))%nat.
Proof.
  intros Hx HP HQ. induction l as [|y l IH]; [by apply elem_of_nil in Hx|].
  apply elem_of_cons in Hx as [<-|Hx].
  - rewrite (filter_cons_False Q), (filter_cons_True P) by done. cbn.
    pose proof (length_filter_filter_le P Q l). lia.
  - specialize (IH Hx). rewrite (filter_cons Q).
    destruct (decide (Q y)); rewrite !(filter_cons P);
      destruct (decide (P y)); cbn; lia.
Qed.

(** X10. The trigger fires [AFTER INSERT OR UPDATE] only.  Deleting document
    rows leaves [sync_jobs] as it is, so a job whose counters were in line
    with its rows and that loses one of them reports a [documents_total]
    greater than the number of rows it has left. *)
Theorem delete_leaves_counters_stale WHERE db j r :
  in_sync db →
  j ∈ sync_jobs_table db →
  r ∈ document_statuses_table db →
  WHERE r = true →
  document_statuses.sync_id r = sync_jobs.id j →
  let db' := DELETE_FROM_document_statuses WHERE db in
  sync_jobs_table db' = sync_jobs_table db
  ∧ Z.of_nat (length (filter (λ r, document_statuses.sync_id r = sync_jobs.id j)
                             (document_statuses_table db')))
    < sync_jobs.documents_total j.
Proof.
  intros Hsync Hj Hr Hwhere Hid db'. split; [done|].
  unfold in_sync in Hsync. rewrite Forall_forall in Hsync.
  pose proof (f_equal total (Hsync j Hj)) as Htotal. cbn in Htotal.
  rewrite Htotal, COUNT_FILTER_all. apply inj_lt. cbn.
  apply length_filter_remove with (x := r); try done.
  intros Hnot. by apply Hnot.
Qed.

Lemma delete_leaves_counters_stale_witness :
  let job := set_counts {| total := 1; processed := 1; success := 1;
                           failed_count := 0 |}
                        (new_job 1 "mitre" false "scheduler") in
  let db := {| sync_jobs_table := [job];
               document_statuses_table := [document 10 1 "T1001" embedded] |} in
  let db' := DELETE_FROM_document_statuses (λ _, true) db in
  Z.of_nat (length (filter (λ r, document_statuses.sync_id r = sync_jobs.id job)
                           (document_statuses_table db')))
  < sync_jobs.documents_total job.
Proof.
  intros job db db'.
  refine (proj2 (delete_leaves_counters_stale (λ _, true) db job
                   (document 10 1 "T1001" embedded) _ _ _ _ _)).
  - by repeat constructor.
  - left.
  - left.
  - reflexivity.
  - reflexivity.
Defined.

(** ** The timestamp triggers *)

Lemma trigger_refreshes_full NOW written : ∀ jobs rows,
  update_sync_progress_trigger_full NOW written
    {| sync_jobs_rows := jobs; document_statuses_rows := rows |}
  = {| sync_jobs_rows := map (refreshed_full NOW written rows) jobs;
       document_statuses_rows := rows |}.
Proof.
  unfold update_sync_progress_trigger_full.
  induction written as [|NEW written IH]; intros jobs rows; simpl.
  - f_equal. induction jobs as [|j jobs IHj]; simpl; [done|].
    by rewrite <- IHj.
  - unfold update_sync_progress_full at 2.
    rewrite bool_decide_true by done.
    cbn [sync_jobs_rows document_statuses_rows columns_of
         document_statuses_table].
    rewrite IH. f_equal.
    rewrite map_map. apply map_ext. intros j. unfold refreshed_full.
    cbn [written_sync_ids map].
    set (sync := document_statuses.sync_id (document_statuses_full.columns NEW)).
    destruct (decide (sync_jobs.id (sync_jobs_full.columns j) = sync)) as [Hj|Hj].
    + rewrite (bool_decide_true _ Hj).
      cbn [update_sync_jobs_timestamp update_timestamp set_updated_at
           sync_jobs_updated_at set_counts_full sync_jobs_full.columns
           set_counts sync_jobs.id].
      rewrite <- Hj.
      rewrite (bool_decide_true (_ ∈ _ :: _)) by left.
      by case_bool_decide.
    + rewrite (bool_decide_false _ Hj).
      case_bool_decide as Hin; case_bool_decide as Hin'; try done.
      * exfalso. apply Hin'. by right.
      * exfalso. apply elem_of_cons in Hin' as [?|?]; done.
Qed.

Lemma exec_full_write_Some NOW w db db' :
  exec_full_write NOW w db = Some db' →
  db' = {| sync_jobs_rows :=
             map (refreshed_full NOW
                    (full_written_rows NOW w (document_statuses_rows db))
                    (full_written_table NOW w (document_statuses_rows db)))
                 (sync_jobs_rows db);
           document_statuses_rows :=
             full_written_table NOW w (document_statuses_rows db) |}.
Proof.
  unfold exec_full_write. case_decide as Hc; [|done].
  intros [= <-]. by rewrite trigger_refreshes_full.
Qed.

(** X1. A write to [document_statuses] that succeeds stores exactly the
    written table, and its triggers change a row of [sync_jobs] only if a
    written row refers to it.  Such a job gets the counters of its rows
    and, through [update_sync_jobs_timestamp], [updated_at = NOW()]; every
    job keeps its eleven other columns, [created_at] among them; and a job
    none of whose documents was written keeps its whole row, [updated_at]
    and counters included. *)
Theorem write_touches_only_counters_of_written_jobs NOW w db db' :
  exec_full_write NOW w db = Some db' →
  let written :=
    written_sync_ids (full_written_rows NOW w (document_statuses_rows db)) in
  document_statuses_rows db'
  = full_written_table NOW w (document_statuses_rows db)
  ∧ Forall2 (λ j j',
       same_identity j j'
       ∧ (sync_jobs.id (sync_jobs_full.columns j) ∈ written →
          sync_jobs_full.updated_at j' = NOW
          ∧ job_in_sync (columns_of db') (sync_jobs_full.columns j'))
       ∧ (sync_jobs.id (sync_jobs_full.columns j) ∉ written → j' = j))
      (sync_jobs_rows db) (sync_jobs_rows db').
Proof.
  intros Hw written. apply exec_full_write_Some in Hw as ->.
  cbn [sync_jobs_rows document_statuses_rows]. split; [done|].
  apply Forall2_fmap_r, Forall_Forall2_diag, Forall_forall. intros j _.
  unfold compose, refreshed_full. fold written. case_bool_decide as Hin.
  - split; [by repeat split|]. split; [|done]. intros _. split; [done|].
    unfold job_in_sync. cbn. by rewrite job_counts_set_counts.
  - split; [by repeat split|]. split; [done|done].
Qed.

Lemma write_touches_only_counters_of_written_jobs_witness :
  ∃ db', exec_full_write 200
           (INSERT_INTO_document_statuses
              [document_at 200 (document 10 1 "T1001" embedded)])
           two_jobs = Some db'
    ∧ Forall2 (λ j j',
         same_identity j j'
         ∧ (sync_jobs.id (sync_jobs_full.columns j) ∈ [1%N] →
            sync_jobs_full.updated_at j' = 200
            ∧ job_in_sync (columns_of db') (sync_jobs_full.columns j'))
         ∧ (sync_jobs.id (sync_jobs_full.columns j) ∉ [1%N] → j' = j))
        (sync_jobs_rows two_jobs) (sync_jobs_rows db').
Proof.
  eexists. split; [vm_compute; reflexivity|].
  refine (proj2 (write_touches_only_counters_of_written_jobs 200
    (INSERT_INTO_document_statuses
       [document_at 200 (document 10 1 "T1001" embedded)]) two_jobs _ _)).
  vm_compute. reflexivity.
Defined.

Lemma fmap_filter_columns (where_ : document_statuses.row → bool)
    (rows : list document_statuses_full.row) :
  document_statuses_full.columns
    <$> filter (λ r, where_ (document_statuses_full.columns r) = true) rows
  = filter (λ c, where_ c = true) (document_statuses_full.columns <$> rows).
Proof.
  induction rows as [|r rows IH]; [done|].
  cbn [fmap list_fmap]. rewrite !filter_cons.
  destruct (decide (where_ (document_statuses_full.columns r) = true)).
  - cbn [fmap list_fmap]. by rewrite <- IH.
  - done.
Qed.

Lemma written_sync_ids_columns written :
  written_sync_ids written
  = map document_statuses.sync_id (document_statuses_full.columns <$> written).
Proof. unfold written_sync_ids. by rewrite map_map. Qed.

Lemma columns_refreshed_full NOW written rows j :
  sync_jobs_full.columns (refreshed_full NOW written rows j)
  = refreshed (document_statuses_full.columns <$> written)
              (document_statuses_full.columns <$> rows)
              (sync_jobs_full.columns j).
Proof.
  unfold refreshed_full, refreshed. rewrite written_sync_ids_columns.
  by case_bool_decide.
Qed.

Lemma same_statement_table NOW w w' rows :
  same_statement w w' →
  document_statuses_full.columns <$> full_written_table NOW w rows
  = written_table w' (document_statuses_full.columns <$> rows).
Proof.
  destruct w as [new|SET WHERE], w' as [new'|set_ where_]; try done; cbn.
  - intros <-. by rewrite fmap_app.
  - intros [Hset Hwhere]. rewrite <- !list_fmap_compose.
    apply list_fmap_ext. intros _ r _. cbn.
    rewrite <- Hwhere. destruct (WHERE r); [apply Hset|done].
Qed.

Lemma same_statement_rows NOW w w' rows :
  same_statement w w' →
  document_statuses_full.columns <$> full_written_rows NOW w rows
  = written_rows w' (document_statuses_full.columns <$> rows).
Proof.
  destruct w as [new|SET WHERE], w' as [new'|set_ where_]; try done; cbn.
  intros [Hset Hwhere].
  rewrite <- fmap_filter_columns.
  assert (filter (λ r, WHERE r = true) rows
          = filter (λ r, where_ (document_statuses_full.columns r) = true) rows)
    as ->.
  { apply list_filter_iff. intros r. by rewrite Hwhere. }
  change (map set_) with (fmap (M:=list) set_).
  change (map (λ r, update_document_statuses_timestamp NOW (SET r)))
    with (fmap (M:=list) (λ r, update_document_statuses_timestamp NOW (SET r))).
  rewrite <- !list_fmap_compose.
  apply list_fmap_ext. intros _ r _. apply Hset.
Qed.

(** X23. The timestamp triggers do not disturb the counters.  Executing a
    statement on the full tables and then leaving out the timestamps and
    [processing_time] gives what the statement gives on the tables without
    them: the one succeeds exactly when the other does, with the same rows,
    counters and progress.  This holds for every insert, and for every
    update whose [SET] and [WHERE] clauses do not read the columns left
    out. *)
Theorem timestamps_do_not_disturb_counters NOW w w' db :
  same_statement w w' →
  columns_of <$> exec_full_write NOW w db = exec_write w' (columns_of db).
Proof.
  intros Hsame. unfold exec_full_write, exec_write.
  cbn [columns_of sync_jobs_table document_statuses_table].
  rewrite (same_statement_table NOW w w' _ Hsame).
  case_decide as Hc; [|done]. cbn [fmap option_fmap option_map]. f_equal.
  rewrite trigger_refreshes_full, trigger_refreshes.
  unfold columns_of. cbn [sync_jobs_rows document_statuses_rows].
  rewrite (same_statement_table NOW w w' _ Hsame).
  rewrite <- (same_statement_rows NOW w w' _ Hsame).
  f_equal.
  change (map (refreshed_full NOW ?a ?b)) with (fmap (M:=list) (refreshed_full NOW a b)).
  change (map (refreshed ?a ?b)) with (fmap (M:=list) (refreshed a b)).
  rewrite <- !list_fmap_compose. apply list_fmap_ext. intros _ j _. cbn.
  rewrite columns_refreshed_full.
  by rewrite (same_statement_table NOW w w' _ Hsame).
Qed.

Lemma timestamps_do_not_disturb_counters_witness :
  let new := [document 10 1 "T1001" embedded] in
  columns_of <$> exec_full_write 200
                   (INSERT_INTO_document_statuses (document_at 200 <$> new))
                   two_jobs
  = exec_write (INSERT new) (columns_of two_jobs).
Proof.
  intros new.
  apply (timestamps_do_not_disturb_counters 200
           (INSERT_INTO_document_statuses (document_at 200 <$> new))
           (INSERT new) two_jobs).
  reflexivity.
Defined.

(** *** An update that assigns nothing new *)








(** ** Deleting sync jobs *)

Lemma surviving_ids (WHERE : sync_jobs.row → bool) jobs k :
  k ∈ map sync_jobs.id jobs →
  k ∉ map sync_jobs.id (filter (λ j, WHERE j = true) jobs) →
  k ∈ map sync_jobs.id (filter (λ j, WHERE j ≠ true) jobs).
Proof.
  intros (j & -> & Hj)%list_elem_of_fmap Hnot.
  apply list_elem_of_fmap. exists j. split; [done|].
  apply list_elem_of_filter. split; [|done].
  intros Hdel. apply Hnot. apply list_elem_of_fmap. exists j. split; [done|].
  by apply list_elem_of_filter.
Qed.

Lemma resolves_survives (WHERE : sync_jobs.row → bool) jobs ref :
  resolves (map sync_jobs.id jobs) ref →
  ¬ refers_to (map sync_jobs.id (filter (λ j, WHERE j = true) jobs)) ref →
  resolves (map sync_jobs.id (filter (λ j, WHERE j ≠ true) jobs)) ref.
Proof. destruct ref as [k|]; [apply surviving_ids|done]. Qed.

(** X7. A [DELETE FROM sync_jobs] that succeeds leaves every foreign key to
    [sync_jobs(id)] resolved, in the five tables that carry one. *)
Theorem delete_keeps_referential_integrity WHERE s s' :
  referential_integrity s →
  DELETE_FROM_sync_jobs WHERE s = Some s' →
  referential_integrity s'.
Proof.
  intros (Hdocs & Hlogs & Hconf & Hidx & Hij). unfold DELETE_FROM_sync_jobs.
  case_decide as Href; [done|]. intros [= <-].
  unfold still_referenced in Href.
  assert (Hc : ¬ Exists (λ r, refers_to
              (map sync_jobs.id
                 (filter (λ j, WHERE j = true) (sync_jobs_table (core s))))
              (source_configs.last_sync_id r)) (source_configs_table s))
    by (intros ?; apply Href; auto).
  assert (Hi : ¬ Exists (λ r, refers_to
              (map sync_jobs.id
                 (filter (λ j, WHERE j = true) (sync_jobs_table (core s))))
              (Promotion.opensearch_indices.sync_id r))
              (opensearch_indices_table s))
    by (intros ?; apply Href; auto).
  assert (Hj : ¬ Exists (λ r, refers_to
              (map sync_jobs.id
                 (filter (λ j, WHERE j = true) (sync_jobs_table (core s))))
              (index_jobs.sync_id r)) (index_jobs_table s))
    by (intros ?; apply Href; auto).
  apply Forall_Exists_neg in Hc, Hi, Hj.
  unfold referential_integrity.
  cbn [core sync_jobs_table document_statuses_table job_logs_table
       source_configs_table opensearch_indices_table index_jobs_table].
  split_and!.
  - apply Forall_forall. intros r [Hr Hin]%list_elem_of_filter.
    rewrite Forall_forall in Hdocs. by apply surviving_ids; [apply Hdocs|].
  - apply Forall_forall. intros r [Hr Hin]%list_elem_of_filter.
    rewrite Forall_forall in Hlogs. by apply surviving_ids; [apply Hlogs|].
  - rewrite Forall_forall in Hconf, Hc. apply Forall_forall. intros r Hin.
    apply resolves_survives; auto.
  - rewrite Forall_forall in Hidx, Hi. apply Forall_forall. intros r Hin.
    apply resolves_survives; auto.
  - rewrite Forall_forall in Hij, Hj. apply Forall_forall. intros r Hin.
    apply resolves_survives; auto.
Qed.

Lemma delete_keeps_referential_integrity_witness :
  referential_integrity
    {| core := {| sync_jobs_table := []; document_statuses_table := [] |};
       job_logs_table := []; source_configs_table := [];
       opensearch_indices_table := []; index_jobs_table := [] |}.
Proof.
  apply (delete_keeps_referential_integrity
           (λ j, bool_decide (sync_jobs.id j = 1%N)) unindexed_sync).
  - unfold referential_integrity. cbn.
    split_and!; repeat constructor.
  - reflexivity.
Defined.

Lemma filter_key_removed {A} (f : A → uuid) (ids : list uuid) k (l : list A) :
  k ∈ ids → filter (λ r, f r = k) (filter (λ r, f r ∉ ids) l) = [].
Proof.
  intros Hk. rewrite list_filter_filter. apply filter_none, Forall_forall.
  intros r _ [Heq Hnot]. apply Hnot. by rewrite Heq.
Qed.

Lemma filter_key_kept {A} (f : A → uuid) (ids : list uuid) k (l : list A) :
  k ∉ ids →
  filter (λ r, f r = k) (filter (λ r, f r ∉ ids) l) = filter (λ r, f r = k) l.
Proof.
  intros Hk. rewrite list_filter_filter. apply list_filter_iff.
  intros r. split; [by intros [? _]|]. intros Heq. split; [done|]. by rewrite Heq.
Qed.

Lemma NoDup_map_inj {A B} (f : A → B) (l : list A) x y :
  NoDup (map f l) → x ∈ l → y ∈ l → f x = f y → x = y.
Proof.
  induction l as [|z l IH]; intros Hd Hx Hy Heq.
  - by apply elem_of_nil in Hx.
  - cbn in Hd. apply NoDup_cons in Hd as [Hz Hd].
    apply elem_of_cons in Hx as [->|Hx]; apply elem_of_cons in Hy as [->|Hy].
    + done.
    + destruct Hz. rewrite Heq. by apply (list_elem_of_fmap_2 f).
    + destruct Hz. rewrite <- Heq. by apply (list_elem_of_fmap_2 f).
    + by apply IH.
Qed.

(** Under the primary key, a job that stays has another identifier than
    every job that goes. *)
Lemma survivor_not_deleted (WHERE : sync_jobs.row → bool) jobs j :
  NoDup (map sync_jobs.id jobs) → j ∈ jobs → WHERE j ≠ true →
  sync_jobs.id j ∉ map sync_jobs.id (filter (λ j, WHERE j = true) jobs).
Proof.
  intros Hd Hj Hstay (j' & Heq & Hj')%list_elem_of_fmap.
  apply list_elem_of_filter in Hj' as [Hgo Hj'].
  assert (j = j') as -> by by eapply NoDup_map_inj.
  done.
Qed.

(** X9. With unique job ids, a deletion that succeeds removes the selected
    jobs together with all their documents and log entries
    ([ON DELETE CASCADE]), keeps every other job with exactly its documents
    and log entries, and keeps counters that were in line with the rows in
    line with them. *)
Theorem delete_cascades_to_the_deleted_jobs_only WHERE s s' :
  NoDup (map sync_jobs.id (sync_jobs_table (core s))) →
  DELETE_FROM_sync_jobs WHERE s = Some s' →
  (∀ j, j ∈ sync_jobs_table (core s) → WHERE j = true →
     (j ∉ sync_jobs_table (core s'))
     ∧ filter (λ r, document_statuses.sync_id r = sync_jobs.id j)
              (document_statuses_table (core s')) = []
     ∧ filter (λ r, job_logs.sync_id r = sync_jobs.id j)
              (job_logs_table s') = [])
  ∧ (∀ j, j ∈ sync_jobs_table (core s) → WHERE j ≠ true →
       j ∈ sync_jobs_table (core s')
       ∧ filter (λ r, document_statuses.sync_id r = sync_jobs.id j)
                (document_statuses_table (core s'))
         = filter (λ r, document_statuses.sync_id r = sync_jobs.id j)
                  (document_statuses_table (core s))
       ∧ filter (λ r, job_logs.sync_id r = sync_jobs.id j) (job_logs_table s')
         = filter (λ r, job_logs.sync_id r = sync_jobs.id j) (job_logs_table s))
  ∧ (in_sync (core s) → in_sync (core s')).
Proof.
  intros Hd. unfold DELETE_FROM_sync_jobs.
  case_decide as Href; [done|]. intros [= <-].
  cbn [core sync_jobs_table document_statuses_table job_logs_table].
  split_and!.
  - intros j Hj Hgo.
    assert (sync_jobs.id j ∈ map sync_jobs.id
              (filter (λ j, WHERE j = true) (sync_jobs_table (core s)))).
    { apply list_elem_of_fmap. exists j. split; [done|].
      by apply list_elem_of_filter. }
    split_and!.
    + by intros [Hstay _]%list_elem_of_filter.
    + by apply (filter_key_removed document_statuses.sync_id).
    + by apply (filter_key_removed job_logs.sync_id).
  - intros j Hj Hstay.
    pose proof (survivor_not_deleted WHERE _ j Hd Hj Hstay).
    split_and!.
    + by apply list_elem_of_filter.
    + by apply (filter_key_kept document_statuses.sync_id).
    + by apply (filter_key_kept job_logs.sync_id).
  - unfold in_sync. cbn [sync_jobs_table document_statuses_table].
    rewrite !Forall_forall. intros Hsync j [Hstay Hj]%list_elem_of_filter.
    rewrite (Hsync j Hj). unfold select_counts.
    rewrite (filter_key_kept document_statuses.sync_id); [done|].
    by apply survivor_not_deleted.
Qed.

Lemma delete_cascades_to_the_deleted_jobs_only_witness :
  ∃ s', DELETE_FROM_sync_jobs (λ j, bool_decide (sync_jobs.id j = 1%N))
                              unindexed_sync = Some s'
        ∧ document_statuses_table (core s') = []
        ∧ in_sync (core s').
Proof.
  eexists. split; [reflexivity|].
  destruct (delete_cascades_to_the_deleted_jobs_only
              (λ j, bool_decide (sync_jobs.id j = 1%N)) unindexed_sync _
              ltac:(apply NoDup_singleton) eq_refl) as (_ & _ & Hsync).
  split; [reflexivity|]. apply Hsync. by repeat constructor.
Defined.

Local Close Scope Z_scope.

(** ** More on the migration runner *)

(** X11. A run is determined by the pending scripts taken together.  If
    their statements, executed one after the other on the tables of the
    database, succeed, the run fulfils and commits these tables, with the
    pending names appended to the recorded ones in directory order; if they
    fail, the run rejects with that error. *)
Theorem runMigrations_computes_pending_scripts dir db :
  let rows := default [] (migrations db) in
  let new := not_yet_applied rows dir in
  match table_effect (concat (map snd new)) (tables db) with
  | inr t =>
      ∃ s, runMigrations dir db = (inr (), s)
           ∧ committed s = {| tables := t;
                              migrations := Some (rows ++ new.*1) |}
  | inl e => (runMigrations dir db).1 = inl e
  end.
Proof.
  intros rows new.
  assert (Hrun : ∀ s0, current s0 = {| tables := tables db;
                                       migrations := Some rows |} →
    match apply_migrations new s0, table_effect (concat (map snd new)) (tables db) with
    | (inr _, s'), inr t =>
        current s' = {| tables := t; migrations := Some (rows ++ new.*1) |}
    | (inl e, _), inl e' => e = e'
    | _, _ => False
    end).
  { intros s0 Hs0.
    pose proof (apply_migrations_effect new s0 rows) as H.
    rewrite Hs0 in H. cbn [tables migrations] in H. specialize (H eq_refl).
    destruct (apply_migrations new s0) as [[e|[]] s1],
             (table_effect (concat (map snd new)) (tables db)) as [e'|t]; try done.
    destruct H as [Ht Hm]. destruct (current s1). cbn in *. by subst. }
  unfold runMigrations, runMigrations_try, mbind, async_bind.
  cbn. rewrite filter_not_yet_applied. fold rows new.
  match goal with |- context [apply_migrations new ?s0] =>
    specialize (Hrun s0 eq_refl);
    destruct (apply_migrations new s0) as [[e|[]] s1] end;
  destruct (table_effect (concat (map snd new)) (tables db)) as [e'|t]; try done.
  - cbn. by rewrite Hrun.
  - eexists. split; [reflexivity|]. exact Hrun.
Qed.

(** *** The names a run records *)

Lemma recorded_prefix_more m0 rows done more c :
  recorded_prefix m0 rows done c → recorded_prefix m0 rows (done ++ more) c.
Proof.
  intros [?|(pre & Hpre & ?)]; [by left|right].
  exists pre. split; [|done]. by apply prefix_app_r.
Qed.

Lemma exec_statements_committed sql : ∀ s,
  match exec_statements sql s with
  | inl (_, s') | inr s' =>
      migrations (current s') = migrations (current s)
      ∧ (migrations (committed s') = migrations (committed s)
         ∨ migrations (committed s') = migrations (current s))
  end.
Proof.
  induction sql as [|st sql IH]; intros s; [by split; [|left]|].
  cbn. destruct st as [| |run]; cbn.
  - specialize (IH (pg_begin s)).
    by destruct (exec_statements sql _) as [[e s']|s'].
  - specialize (IH (pg_commit s)).
    destruct (exec_statements sql _) as [[e s']|s']; cbn in IH;
      destruct IH as [? [?|?]]; split; auto.
  - destruct (run _) as [e|t]; [by split; [|left]|].
    specialize (IH (set_current {| tables := t;
                                   migrations := migrations (current s) |} s)).
    by destruct (exec_statements sql _) as [[e s']|s'].
Qed.

Lemma end_of_query_committed ok s :
  migrations (committed (end_of_query ok s)) = migrations (committed s)
  ∨ migrations (committed (end_of_query ok s)) = migrations (current s).
Proof.
  unfold end_of_query. destruct (in_transaction s), ok; cbn; auto.
Qed.

Lemma query_script_recorded m0 rows done sql s :
  migrations (current s) = Some (rows ++ done) →
  recorded_prefix m0 rows done (committed s) →
  let r := query_script sql s in
  recorded_prefix m0 rows done (committed r.2)
  ∧ (r.1 = inr () → migrations (current r.2) = Some (rows ++ done)).
Proof.
  intros Hm Hc. unfold query_script.
  pose proof (exec_statements_committed sql (log_query (Q_script sql) s)) as H.
  assert (Hcur : ∀ c, migrations c = Some (rows ++ done) →
                      recorded_prefix m0 rows done c)
    by (intros c ?; right; by exists done).
  assert (Hsame : ∀ c, migrations c = migrations (committed s) →
                       recorded_prefix m0 rows done c).
  { intros c Heq. unfold recorded_prefix in *. by rewrite Heq. }
  destruct (exec_statements sql _) as [[e s']|s']; cbn in H |- *;
    destruct H as [Hm' Hc'].
  - split; [|done].
    destruct (end_of_query_committed false s') as [Heq|Heq];
      destruct Hc' as [Heq'|Heq'];
      first [apply Hsame; congruence | apply Hcur; congruence].
  - split; [|by rewrite end_of_query_current, Hm'].
    destruct (end_of_query_committed true s') as [Heq|Heq];
      destruct Hc' as [Heq'|Heq'];
      first [apply Hsame; congruence | apply Hcur; congruence].
Qed.

Lemma query_INSERT_recorded m0 rows done file s :
  migrations (current s) = Some (rows ++ done) →
  recorded_prefix m0 rows done (committed s) →
  let r := query_INSERT_INTO_migrations file s in
  recorded_prefix m0 rows (done ++ [file]) (committed r.2)
  ∧ r.1 = inr ()
  ∧ migrations (current r.2) = Some (rows ++ done ++ [file]).
Proof.
  intros Hm Hc. unfold query_INSERT_INTO_migrations. cbn [log_query current].
  rewrite Hm. cbn [fst snd].
  rewrite end_of_query_current. cbn [set_current current migrations].
  rewrite <- app_assoc. split; [|done].
  match goal with |- context [end_of_query true ?s1] =>
    destruct (end_of_query_committed true s1) as [Heq|Heq] end;
    cbn [set_current log_query committed current migrations] in Heq.
  - apply recorded_prefix_more. unfold recorded_prefix in *. by rewrite Heq.
  - right. exists (done ++ [file]). split; [done|]. by rewrite Heq, app_assoc.
Qed.

Lemma apply_migrations_recorded m0 rows files : ∀ s done r s',
  apply_migrations files s = (r, s') →
  migrations (current s) = Some (rows ++ done) →
  recorded_prefix m0 rows done (committed s) →
  recorded_prefix m0 rows (done ++ files.*1) (committed s')
  ∧ (r = inr () → migrations (current s') = Some (rows ++ done ++ files.*1)).
Proof.
  induction files as [|[file sql] files IH]; intros s done r s' Hrun Hm Hc.
  - injection Hrun as <- <-. cbn. by rewrite app_nil_r.
  - cbn [apply_migrations] in Hrun. unfold mbind at 1 2, async_bind in Hrun.
    destruct (query_script_recorded m0 rows done sql s Hm Hc) as [Hc1 Hm1].
    destruct (query_script sql s) as [[e|[]] s1]; cbn [fst snd] in *.
    + injection Hrun as <- <-. split; [by apply recorded_prefix_more|done].
    + specialize (Hm1 eq_refl).
      destruct (query_INSERT_recorded m0 rows done file s1 Hm1 Hc1)
        as (Hc2 & Hok & Hm2).
      destruct (query_INSERT_INTO_migrations file s1) as [[e|[]] s2];
        cbn [fst snd] in *; [done|].
      destruct (IH s2 (done ++ [file]) r s' Hrun Hm2 Hc2) as [Hc3 Hm3].
      cbn [fmap list_fmap fst].
      replace (done ++ file :: files.*1) with ((done ++ [file]) ++ files.*1)
        by by rewrite <- app_assoc.
      split; [done|]. intros Hok'. rewrite (Hm3 Hok'). by rewrite !app_assoc.
Qed.

(** X12. However a run ends, the [migrations] table is either as it was, or
    holds the names recorded before followed by a prefix of the pending
    names: no name is dropped, none is recorded out of directory order. *)
Theorem runMigrations_records_a_prefix dir db :
  let rows := default [] (migrations db) in
  let new := not_yet_applied rows dir in
  let s := (runMigrations dir db).2 in
  migrations (committed s) = migrations db
  ∨ ∃ pre, pre `prefix_of` new.*1
           ∧ migrations (committed s) = Some (rows ++ pre).
Proof.
  intros rows new.
  unfold runMigrations, runMigrations_try, mbind, async_bind.
  cbn. rewrite filter_not_yet_applied. fold rows new.
  match goal with |- context [apply_migrations new ?s0] =>
    destruct (apply_migrations new s0) as [r s1] eqn:Hrun;
    destruct (apply_migrations_recorded (migrations db) rows new s0 [] r s1 Hrun)
      as [Hc Hm];
    [cbn; by rewrite app_nil_r | by left |] end.
  cbn [app] in *. destruct r as [e|[]]; cbn.
  - exact Hc.
  - right. exists (new.*1). split; [done|]. by apply Hm.
Qed.

Lemma rejected_run (r : js_result unit) e : r.1 = inl e → r = (inl e, r.2).
Proof. destruct r as [[e'|[]] s]; by intros [= ->]. Qed.

Lemma runMigrations_plain_batch_is_atomic_witness :
  let dir := [("001_jobs.sql", [CREATE_TABLE "jobs"]);
              ("002_jobs_again.sql", [CREATE_TABLE "jobs"])]%string in
  committed (runMigrations dir fresh_database).2 = fresh_database.
Proof.
  intros dir.
  refine (proj1 (runMigrations_plain_batch_is_atomic dir fresh_database
                   "relation already exists: jobs"
                   (runMigrations dir fresh_database).2 _ _)).
  - by repeat constructor.
  - apply rejected_run. vm_compute. reflexivity.
Defined.

(** *** The queries of a run *)

Lemma exec_statements_received sql : ∀ s,
  match exec_statements sql s with
  | inl (_, s') | inr s' => received s' = received s
  end.
Proof.
  induction sql as [|st sql IH]; intros s; [done|].
  cbn. destruct st as [| |run]; cbn.
  - apply (IH (pg_begin s)).
  - apply (IH (pg_commit s)).
  - destruct (run _) as [e|t]; [done|]. apply (IH (set_current _ s)).
Qed.

Lemma apply_migrations_received files : ∀ s r s',
  apply_migrations files s = (r, s') →
  ∃ qs, Forall loop_query qs ∧ received s' = received s ++ qs.
Proof.
  induction files as [|[file sql] files IH]; intros s r s' Hrun.
  - injection Hrun as <- <-. exists []. by rewrite app_nil_r.
  - cbn [apply_migrations] in Hrun. unfold mbind at 1 2, async_bind in Hrun.
    assert (H1 : received (query_script sql s).2 = received s ++ [Q_script sql]).
    { unfold query_script.
      pose proof (exec_statements_received sql (log_query (Q_script sql) s)) as H.
      destruct (exec_statements sql _) as [[e s1]|s1]; cbn;
        by rewrite end_of_query_received. }
    destruct (query_script sql s) as [[e|[]] s1]; cbn [snd] in H1.
    + injection Hrun as <- <-. exists [Q_script sql].
      split; [by repeat constructor|done].
    + assert (H2 : received (query_INSERT_INTO_migrations file s1).2
                   = received s1 ++ [Q_INSERT_INTO_migrations file]).
      { unfold query_INSERT_INTO_migrations. cbn [log_query current].
        destruct (migrations (current s1)); cbn;
          by rewrite end_of_query_received. }
      destruct (query_INSERT_INTO_migrations file s1) as [[e|[]] s2];
        cbn [snd] in H2.
      * injection Hrun as <- <-.
        exists [Q_script sql; Q_INSERT_INTO_migrations file].
        split; [by repeat constructor|]. by rewrite H2, H1, <- app_assoc.
      * destruct (IH _ _ _ Hrun) as (qs & Hqs & Hrecv).
        exists (Q_script sql :: Q_INSERT_INTO_migrations file :: qs).
        split; [by repeat constructor|].
        by rewrite Hrecv, H2, H1, <- !app_assoc.
Qed.

(** X14. Every run sends [BEGIN], the [CREATE TABLE IF NOT EXISTS] and the
    [SELECT] first, then scripts and insertions only, and last [COMMIT] when
    it fulfils and [ROLLBACK] when it rejects; it leaves the session outside
    a transaction, with nothing uncommitted. *)
Theorem runMigrations_brackets_its_queries dir db :
  let r := runMigrations dir db in
  in_transaction r.2 = false
  ∧ current r.2 = committed r.2
  ∧ ∃ qs, Forall loop_query qs
          ∧ received r.2
            = [Q_BEGIN; Q_CREATE_TABLE_IF_NOT_EXISTS_migrations;
               Q_SELECT_name_FROM_migrations]
              ++ qs ++ [match r.1 with
                        | inr _ => Q_COMMIT
                        | inl _ => Q_ROLLBACK
                        end].
Proof.
  unfold runMigrations, runMigrations_try, mbind, async_bind. cbn.
  match goal with |- context [apply_migrations ?fs ?s0] =>
    destruct (apply_migrations fs s0) as [r s1] eqn:Hrun;
    destruct (apply_migrations_received _ _ _ _ Hrun) as (qs & Hqs & Hrecv) end.
  cbn in Hrecv.
  destruct r as [e|[]]; cbn; (split; [done|]); (split; [done|]);
    exists qs; (split; [done|]); by rewrite Hrecv.
Qed.

Import Admission.

(** ** More on the job coordinator *)

Lemma next_worker_free st extra :
  consistent extra st →
  running st !! next_worker st = None ∧ promises st !! next_worker st = None.
Proof.
  intros Hst.
  assert (Hp : promises st !! next_worker st = None).
  { destruct (promises st !! next_worker st) eqn:E; [|done].
    assert (next_worker st < next_worker st)
      by (eapply promises_known; eauto). lia. }
  split; [|done].
  destruct (running st !! next_worker st) as [p|] eqn:E; [|done].
  destruct (running_pending _ _ Hst _ _ E) as [_ Hpend]. congruence.
Qed.

Lemma spawn_in_flight extra c type data st :
  consistent extra st →
  in_flight (spawn c type data st) = S (in_flight st).
Proof.
  intros Hst. unfold in_flight. cbn.
  apply map_size_insert_None. by apply (next_worker_free st extra).
Qed.

Lemma resume_in_flight outcome b rest st :
  consistent (b :: rest) st →
  in_flight (resume outcome st b)
  = match outcome with Rejected _ => in_flight st | _ => S (in_flight st) end.
Proof.
  intros Hst. destruct outcome; cbn [resume]; try done;
    by apply (spawn_in_flight (b :: rest)).
Qed.

Lemma foldl_resume_in_flight outcome woken : ∀ st,
  consistent woken st →
  in_flight (foldl (resume outcome) st woken)
  = match outcome with
    | Rejected _ => in_flight st
    | _ => length woken + in_flight st
    end.
Proof.
  induction woken as [|b rest IH]; intros st Hst.
  - by destruct outcome.
  - cbn [foldl]. rewrite IH by by apply resume_consistent.
    rewrite (resume_in_flight _ _ _ _ Hst). destruct outcome; cbn; lia.
Qed.

Lemma slots_held_spawn extra c type data st :
  consistent extra st → slots_held st → slots_held (spawn c type data st).
Proof.
  intros Hst Hs w. cbn. destruct (decide (w = next_worker st)) as [->|Hne].
  - by rewrite !lookup_insert_eq.
  - rewrite !lookup_insert_ne by done. apply Hs.
Qed.

Lemma slots_held_resume outcome b rest st :
  consistent (b :: rest) st → slots_held st → slots_held (resume outcome st b).
Proof.
  intros Hst Hs. destruct outcome; cbn [resume]; try done;
    by apply (slots_held_spawn (b :: rest)).
Qed.

Lemma slots_held_foldl outcome woken : ∀ st,
  consistent woken st → slots_held st →
  slots_held (foldl (resume outcome) st woken).
Proof.
  induction woken as [|b rest IH]; intros st Hst Hs; [done|].
  cbn [foldl]. apply IH; [by apply resume_consistent|].
  by eapply slots_held_resume.
Qed.

Lemma slots_held_settled w outcome st :
  outcome ≠ Pending → slots_held st → slots_held (settled w outcome st).
Proof.
  intros Hne Hs w'. cbn. destruct (decide (w' = w)) as [->|Hne'].
  - rewrite lookup_insert_eq. congruence.
  - rewrite lookup_insert_ne, lookup_delete_ne by done. apply Hs.
Qed.

Lemma slots_held_step st e :
  consistent [] st → slots_held st → slots_held (step st e).
Proof.
  intros Hst Hs. destruct e as [type data|w ev]; cbn [step].
  - unfold runJob. cbn. case_decide; [done|].
    eapply (slots_held_spawn []); [|done].
    destruct Hst as [Hp Hw Hc Hb Hd Hr Hrace]. split; cbn; try done.
    + intros c Hc'. apply Hc in Hc'. lia.
    + eapply Forall_impl; [exact Hb|]. cbn. intros b [? ?]. split; [lia|done].
  - unfold emit.
    destruct (promises st !! w) as [[| |]|] eqn:Hw; try done.
    destruct (handler ev) as [outcome|] eqn:Hev; [|done].
    unfold settle. apply slots_held_foldl.
    + by apply settled_consistent.
    + apply slots_held_settled; [|done]. by eapply handler_settles.
Qed.

Lemma slots_held_run es : ∀ st,
  consistent [] st → slots_held st → slots_held (run es st).
Proof.
  unfold run. induction es as [|e es IH]; intros st Hst Hs; [done|].
  cbn. apply IH; [by apply step_consistent|by apply slots_held_step].
Qed.

Lemma reachable_slots_held n es : slots_held (run es (constructor n)).
Proof.
  apply slots_held_run; [apply consistent_constructor|].
  intros w Hw. cbn in Hw. by rewrite lookup_empty in Hw.
Qed.

(** The number of workers in flight after a promise settles. *)
Lemma settle_in_flight w outcome st :
  consistent [] st → slots_held st →
  promises st !! w = Some Pending →
  S (in_flight (settle w outcome st))
  = match outcome with
    | Rejected _ => in_flight st
    | _ => length (filter (λ b, w ∈ race b) (blocked st)) + in_flight st
    end.
Proof.
  intros Hst Hs Hw. unfold settle.
  rewrite foldl_resume_in_flight by by apply settled_consistent.
  assert (Hdel : S (in_flight (settled w outcome st)) = in_flight st).
  { unfold in_flight. cbn. rewrite map_size_delete, (Hs w Hw).
    assert (size (running st) ≠ 0)
      by (apply (map_size_ne_0_lookup_2 _ w); rewrite (Hs w Hw); eauto).
    cbn. lia. }
  destruct outcome; lia.
Qed.

Lemma spawn_promise_kept extra c type data st p o :
  consistent extra st → promises st !! p = Some o →
  promises (spawn c type data st) !! p = Some o.
Proof.
  intros Hst Hp. cbn. rewrite lookup_insert_ne; [done|].
  intros <-. destruct (next_worker_free st extra Hst) as [_ Hfree]. congruence.
Qed.

Lemma foldl_resume_promise_kept outcome woken p o : ∀ st,
  consistent woken st → promises st !! p = Some o →
  promises (foldl (resume outcome) st woken) !! p = Some o.
Proof.
  induction woken as [|b rest IH]; intros st Hst Hp; [done|].
  cbn [foldl]. apply IH; [by apply resume_consistent|].
  destruct outcome; cbn [resume]; try done;
    by apply (spawn_promise_kept (b :: rest)).
Qed.




(** *** One call at a time *)

Lemma foldl_resume_maxParallel outcome woken : ∀ st,
  maxParallel (foldl (resume outcome) st woken) = maxParallel st.
Proof.
  induction woken as [|b rest IH]; intros st; [done|].
  cbn [foldl]. rewrite IH. by destruct outcome.
Qed.

Lemma step_maxParallel st e : maxParallel (step st e) = maxParallel st.
Proof.
  destruct e as [type data|w ev]; cbn [step].
  - unfold runJob. cbn. by case_decide.
  - unfold emit. destruct (promises st !! w) as [[| |]|]; try done.
    destruct (handler ev); [|done]. unfold settle.
    by rewrite foldl_resume_maxParallel.
Qed.

Lemma length_filter_le_1 {A} (P : A → Prop) `{!∀ x, Decision (P x)} (l : list A) :
  length l ≤ 1 → length (filter P l) ≤ 1.
Proof. pose proof (length_filter P l). lia. Qed.

(** Under the discipline, a turn of the event loop keeps the ceiling and
    leaves at most one call suspended. *)
Lemma disciplined_step st e :
  consistent [] st → slots_held st →
  in_flight st ≤ maxParallel st → length (blocked st) ≤ 1 →
  match e with call_runJob _ _ => blocked st = [] | _ => True end →
  in_flight (step st e) ≤ maxParallel st ∧ length (blocked (step st e)) ≤ 1.
Proof.
  intros Hst Hs Hle Hone He. destruct e as [type data|w ev]; cbn [step].
  - unfold runJob. cbn. case_decide as Hfull.
    + cbn. rewrite He. cbn. split; [exact Hle|lia].
    + rewrite (spawn_in_flight []).
      * unfold in_flight in *. cbn. split; lia.
      * destruct Hst as [Hp Hw Hc Hb Hd Hr Hrace]. split; cbn; try done.
        -- intros c Hc'. apply Hc in Hc'. lia.
        -- eapply Forall_impl; [exact Hb|]. cbn. intros b [? ?].
           split; [lia|done].
  - unfold emit.
    destruct (promises st !! w) as [[| |]|] eqn:Hw; try done.
    destruct (handler ev) as [outcome|] eqn:Hev; [|done].
    pose proof (settle_in_flight w outcome st Hst Hs Hw) as Hsize.
    pose proof (length_filter_le_1 (λ b, w ∈ race b) (blocked st) Hone).
    split.
    + destruct outcome; lia.
    + unfold settle. rewrite foldl_resume_blocked. cbn.
      by apply length_filter_le_1.
Qed.

(** X16. The ceiling holds for callers that never call [runJob] while an
    earlier call is still waiting: then at most [maxParallel] workers are
    in flight at any time. *)
Theorem one_at_a_time_keeps_ceiling n es :
  one_at_a_time es (constructor n) →
  in_flight (run es (constructor n)) ≤ n.
Proof.
  assert (Hgen : ∀ es st,
    consistent [] st → slots_held st →
    in_flight st ≤ maxParallel st → length (blocked st) ≤ 1 →
    one_at_a_time es st →
    in_flight (run es st) ≤ maxParallel st).
  { clear. induction es as [|e es IH]; intros st Hst Hs Hle Hone Hes; [done|].
    destruct Hes as [He Hes].
    destruct (disciplined_step st e Hst Hs Hle Hone He) as [Hle' Hone'].
    change (run (e :: es) st) with (run es (step st e)).
    rewrite <- (step_maxParallel st e) in Hle' |- *.
    apply IH; try done.
    - by apply step_consistent.
    - by apply slots_held_step. }
  intros Hes. apply (Hgen es (constructor n)).
  - apply consistent_constructor.
  - intros w Hw. cbn in Hw. by rewrite lookup_empty in Hw.
  - unfold in_flight. cbn. rewrite map_size_empty. lia.
  - cbn. lia.
  - done.
Qed.

Lemma one_at_a_time_keeps_ceiling_witness :
  in_flight (run [call_runJob "docs_embeddings" "batch-1";
                  call_runJob "docs_embeddings" "batch-2";
                  worker_emits 0 (message "done")] (constructor 1)) ≤ 1.
Proof.
  apply one_at_a_time_keeps_ceiling. cbn. repeat split; reflexivity.
Defined.

(** *** Promises settle once *)

Lemma settled_not_running st w o :
  consistent [] st → promises st !! w = Some o → o ≠ Pending →
  running st !! w = None.
Proof.
  intros Hst Hw Hne. destruct (running st !! w) as [p|] eqn:E; [|done].
  destruct (running_pending _ _ Hst _ _ E) as [_ Hpend]. congruence.
Qed.

(** X17. Once a pending worker posts a message, the promise of its caller is
    fulfilled with it and the worker has left [running]; no later event, a
    later error or non-zero exit of that worker included, changes either. *)
Theorem message_fulfils_for_good n es c w v es' :
  let st := run es (constructor n) in
  calls st !! c = Some (returned w) →
  promises st !! w = Some Pending →
  let st' := run es' (emit w (message v) st) in
  submitter_sees c st' = Fulfilled v ∧ running st' !! w = None.
Proof.
  intros st Hc Hw st'.
  pose proof (reachable_consistent n es) as Hst. fold st in Hst.
  assert (Hemit : emit w (message v) st = settle w (Fulfilled v) st)
    by (unfold emit; by rewrite Hw).
  assert (Hst1 : consistent [] (emit w (message v) st))
    by by apply emit_consistent.
  pose proof (run_consistent es' _ Hst1) as Hst'.
  pose proof (run_extends es' _ Hst1) as Hext.
  assert (H1 : calls st' !! c = Some (returned w)).
  { apply (calls_kept _ _ Hext). rewrite Hemit.
    by apply (calls_kept _ _ (settle_extends w (Fulfilled v) st Hst Hw)). }
  assert (H2 : promises st' !! w = Some (Fulfilled v)).
  { apply (settled_kept _ _ Hext); [|done].
    rewrite Hemit. by apply settle_outcome. }
  split.
  - unfold submitter_sees. by rewrite H1, H2.
  - by eapply settled_not_running.
Qed.

Lemma message_fulfils_for_good_witness :
  let st' := run [worker_emits 0 (exit 1)]
                 (emit 0 (message "42 documents")
                    (run [call_runJob "source_sync" "mitre"] (constructor 3))) in
  submitter_sees 0 st' = Fulfilled "42 documents" ∧ running st' !! 0 = None.
Proof.
  exact (message_fulfils_for_good 3 [call_runJob "source_sync" "mitre"] 0 0
           "42 documents" [worker_emits 0 (exit 1)] eq_refl eq_refl).
Defined.

(** *** A slot is held until the worker's own promise settles *)

Lemma pending_kept_step st e w :
  consistent [] st → promises st !! w = Some Pending → ¬ settles w e →
  promises (step st e) !! w = Some Pending.
Proof.
  intros Hst Hw Hns. destruct e as [type data|w' ev]; cbn [step].
  - unfold runJob. cbn. case_decide; [done|].
    eapply (spawn_promise_kept []); [|done].
    destruct Hst as [Hp Hwk Hc Hb Hd Hr Hrace]. split; cbn; try done.
    + intros c Hc'. apply Hc in Hc'. lia.
    + eapply Forall_impl; [exact Hb|]. cbn. intros b [? ?]. split; [lia|done].
  - unfold emit.
    destruct (promises st !! w') as [[| |]|] eqn:Hw'; try done.
    destruct (handler ev) as [outcome|] eqn:Hev; [|done].
    assert (w' ≠ w) as Hne.
    { intros ->. apply Hns. cbn. split; [done|]. by rewrite Hev. }
    unfold settle. apply foldl_resume_promise_kept.
    + by apply settled_consistent.
    + cbn. by rewrite lookup_insert_ne.
Qed.

(** X18. A worker whose promise is pending keeps its promise pending and its
    slot in [running] through any events other than its own message, error
    or non-zero exit; its own exit with code 0 is among those that change
    nothing. *)
Theorem slot_held_until_own_promise_settles n es es' w :
  let st := run es (constructor n) in
  promises st !! w = Some Pending →
  Forall (λ e, ¬ settles w e) es' →
  promises (run es' st) !! w = Some Pending
  ∧ running (run es' st) !! w = Some w.
Proof.
  intros st Hw Hes'.
  assert (Hpend : promises (run es' st) !! w = Some Pending).
  { pose proof (reachable_consistent n es) as Hst. fold st in Hst.
    clearbody st. clear n es. revert st Hw Hst.
    induction Hes' as [|e es' He _ IH]; intros st Hw Hst; [done|].
    change (run (e :: es') st) with (run es' (step st e)).
    apply IH; [by apply pending_kept_step|by apply step_consistent]. }
  split; [done|].
  pose proof (reachable_slots_held n (es ++ es')) as Hs.
  rewrite run_app in Hs. by apply Hs.
Qed.

Lemma slot_held_until_own_promise_settles_witness :
  let st := run [call_runJob "source_sync" "mitre"] (constructor 1) in
  let st' := run [worker_emits 0 (exit 0);
                  call_runJob "source_sync" "cpr_blogs"] st in
  promises st' !! 0 = Some Pending ∧ running st' !! 0 = Some 0.
Proof.
  apply (slot_held_until_own_promise_settles 1
           [call_runJob "source_sync" "mitre"]
           [worker_emits 0 (exit 0); call_runJob "source_sync" "cpr_blogs"] 0).
  - reflexivity.
  - repeat constructor.
    + intros [_ H]. by apply H.
    + intros [].
Defined.

(** X19. A coordinator constructed with [maxParallel = 0] never starts a
    worker: every call waits on a race over no promise at all, and every
    caller's promise stays pending. *)
Theorem zero_ceiling_starts_nothing es :
  let st := run es (constructor 0) in
  workers st = ∅ ∧ in_flight st = 0
  ∧ length (blocked st) = next_call st
  ∧ Forall (λ b, race b = []) (blocked st)
  ∧ ∀ c, submitter_sees c st = Pending.
Proof.
  assert (Hgen : ∀ es st,
    maxParallel st = 0 → running st = ∅ → promises st = ∅ →
    workers st = ∅ → calls st = ∅ →
    length (blocked st) = next_call st →
    Forall (λ b, race b = []) (blocked st) →
    let st' := run es st in
    running st' = ∅ ∧ workers st' = ∅ ∧ calls st' = ∅
    ∧ length (blocked st') = next_call st'
    ∧ Forall (λ b, race b = []) (blocked st')).
  { clear. induction es as [|e es IH]; intros st Hmax Hr Hp Hw Hc Hlen Hrace.
    - by cbn.
    - change (run (e :: es) st) with (run es (step st e)).
      destruct e as [type data|w ev]; cbn [step].
      + unfold runJob. cbn. rewrite Hmax, decide_True by lia.
        apply IH; cbn; try done.
        * rewrite length_app. cbn. lia.
        * apply Forall_app. split; [done|]. apply Forall_singleton. cbn.
          by rewrite Hr, map_to_list_empty.
      + unfold emit. rewrite Hp, lookup_empty. by apply IH. }
  intros st.
  destruct (Hgen es (constructor 0)) as (Hr & Hw & Hc & Hlen & Hrace);
    try done.
  fold st in Hr, Hw, Hc, Hlen, Hrace.
  split_and!; try done.
  - unfold in_flight. by rewrite Hr, map_size_empty.
  - intros c. unfold submitter_sees. by rewrite Hc, lookup_empty.
Qed.

(** *** Every call is accounted for *)

Lemma accounted_spawn extra c type data st :
  consistent extra st → calls st !! c = None →
  accounted extra st → accounted extra (spawn c type data st).
Proof.
  intros Hst Hnone [Ha Hr]. split; cbn.
  - intros c' Hlt. destruct (Ha c' Hlt) as [?|[o Ho]]; [by left|right].
    destruct (decide (c = c')) as [->|Hne].
    + rewrite lookup_insert_eq. eauto.
    + rewrite lookup_insert_ne; eauto.
  - intros c' w Hc'. apply lookup_insert_Some in Hc' as [[<- [= <-]]|[Hne Hc']].
    + rewrite lookup_insert_eq. eauto.
    + destruct (Hr c' w Hc') as (i & Hi & Hsp). exists i. split; [|done].
      rewrite lookup_insert_ne; [done|]. intros <-.
      destruct (workers_known _ _ Hst _ _ Hi). lia.
Qed.

Lemma accounted_resume outcome b rest st :
  consistent (b :: rest) st →
  accounted (b :: rest) st → accounted rest (resume outcome st b).
Proof.
  intros Hst Hacc.
  pose proof (blocked_known _ _ Hst) as Hb.
  apply Forall_app in Hb as [_ Hb]. apply Forall_cons in Hb as [[Hlt Hnone] _].
  assert (Hmove : ∀ st', blocked st' = blocked st → next_call st' = next_call st →
            is_Some (calls st' !! blocked_id b) →
            (∀ c, is_Some (calls st !! c) → is_Some (calls st' !! c)) →
            ∀ c, c < next_call st' →
              c ∈ blocked_id <$> (blocked st' ++ rest) ∨ is_Some (calls st' !! c)).
  { intros st' Hbl Hnc Hnew Hmono c Hc. rewrite Hbl. rewrite Hnc in Hc.
    destruct (calls_accounted _ _ Hacc c Hc) as [Hin|Hsome]; [|by auto].
    rewrite fmap_app, fmap_cons in Hin.
    apply elem_of_app in Hin as [Hin|Hin].
    - left. rewrite fmap_app. apply elem_of_app. by left.
    - apply elem_of_cons in Hin as [->|Hin]; [by right|].
      left. rewrite fmap_app. apply elem_of_app. by right. }
  assert (Hspawn : accounted rest
            (spawn (blocked_id b) (blocked_jobType b) (blocked_data b) st)).
  { pose proof (accounted_spawn (b :: rest) (blocked_id b) (blocked_jobType b)
                  (blocked_data b) st Hst Hnone Hacc) as [Ha Hr].
    split; [|done]. apply Hmove; try done.
    - cbn. rewrite lookup_insert_eq. eauto.
    - intros c [o Ho]. cbn. rewrite lookup_insert_ne; [eauto|]. congruence. }
  destruct outcome as [|v|e]; cbn [resume]; [done|done|].
  split; cbn.
  - apply (Hmove (resume (Rejected e) st b)); try done.
    + cbn. rewrite lookup_insert_eq. eauto.
    + intros c [o Ho]. cbn. rewrite lookup_insert_ne; [eauto|]. congruence.
  - intros c w Hc. apply lookup_insert_Some in Hc as [[_ [=]]|[_ Hc]].
    by apply (returned_worker _ _ Hacc).
Qed.

Lemma accounted_foldl outcome woken : ∀ st,
  consistent woken st → accounted woken st →
  accounted [] (foldl (resume outcome) st woken).
Proof.
  induction woken as [|b rest IH]; intros st Hst Hacc; [done|].
  cbn [foldl]. apply IH; [by apply resume_consistent|by apply accounted_resume].
Qed.

Lemma accounted_step st e :
  consistent [] st → accounted [] st → accounted [] (step st e).
Proof.
  intros Hst Hacc. destruct e as [type data|w ev]; cbn [step].
  - assert (Hfresh : calls st !! next_call st = None).
    { destruct (calls st !! next_call st) eqn:E; [|done].
      assert (next_call st < next_call st) by (eapply calls_known; eauto). lia. }
    unfold runJob. cbn. case_decide.
    + destruct Hacc as [Ha Hr]. split; cbn; [|done].
      intros c Hc. rewrite app_nil_r in *. rewrite fmap_app.
      destruct (decide (c = next_call st)) as [->|Hne].
      * left. apply elem_of_app. right. cbn. left.
      * destruct (Ha c) as [?|?]; [lia| |by right].
        left. apply elem_of_app. by left.
    + match goal with |- accounted [] (spawn _ _ _ ?st1) =>
        assert (Hst1 : consistent [] st1) end.
      { destruct Hst as [Hp Hw Hc Hb Hd Hr Hrace]. split; cbn; try done.
        - intros c Hc'. apply Hc in Hc'. lia.
        - eapply Forall_impl; [exact Hb|]. cbn. intros b [? ?].
          split; [lia|done]. }
      pose proof (accounted_spawn [] (next_call st) type data _ Hst1 Hfresh)
        as Hsp.
      assert (Hacc1 : ∀ c w, calls st !! c = Some (returned w) →
                ∃ i, workers st !! w = Some i ∧ spawned_by i = c)
        by apply Hacc.
      split.
      * intros c Hc. cbn in Hc. cbn.
        destruct (decide (c = next_call st)) as [->|Hne].
        -- right. rewrite lookup_insert_eq. eauto.
        -- destruct (calls_accounted _ _ Hacc c) as [?|[o Ho]];
             [lia|by left|right].
           rewrite lookup_insert_ne; eauto.
      * intros c w Hc. cbn in Hc. cbn.
        apply lookup_insert_Some in Hc as [[<- [= <-]]|[Hne Hc]].
        -- rewrite lookup_insert_eq. eauto.
        -- destruct (Hacc1 c w Hc) as (i & Hi & Hspb). exists i.
           split; [|done]. rewrite lookup_insert_ne; [done|]. intros <-.
           destruct (workers_known _ _ Hst _ _ Hi). lia.
  - unfold emit.
    destruct (promises st !! w) as [[| |]|] eqn:Hw; try done.
    destruct (handler ev) as [outcome|] eqn:Hev; [|done].
    unfold settle. apply accounted_foldl; [by apply settled_consistent|].
    destruct Hacc as [Ha Hr]. split; cbn; [|done].
    intros c Hc. destruct (Ha c Hc) as [Hin|?]; [left|by right].
    rewrite app_nil_r in Hin.
    apply list_elem_of_fmap in Hin as (b & -> & Hb).
    apply list_elem_of_fmap. exists b. split; [done|].
    apply elem_of_app. destruct (decide (w ∈ race b)).
    + right. by apply list_elem_of_filter.
    + left. by apply list_elem_of_filter.
Qed.

Lemma reachable_accounted n es : accounted [] (run es (constructor n)).
Proof.
  assert (Hgen : ∀ es st, consistent [] st → accounted [] st →
                          accounted [] (run es st)).
  { clear. induction es as [|e es IH]; intros st Hst Hacc; [done|].
    change (run (e :: es) st) with (run es (step st e)).
    apply IH; [by apply step_consistent|by apply accounted_step]. }
  apply Hgen; [apply consistent_constructor|].
  split; cbn; [lia|]. intros c w Hc. by rewrite lookup_empty in Hc.
Qed.

(** X20. In every reachable state each call made so far is in exactly one
    place: still waiting, with no worker; rejected by its race, with no
    worker; or returned, with exactly one worker, the one it returned. *)
Theorem every_call_is_accounted_for n es c :
  let st := run es (constructor n) in
  c < next_call st →
  match calls st !! c with
  | None => c ∈ blocked_id <$> blocked st ∧ workers_of c st = []
  | Some (threw _) => (c ∉ blocked_id <$> blocked st) ∧ workers_of c st = []
  | Some (returned w) =>
      (c ∉ blocked_id <$> blocked st) ∧ workers_of c st = [w]
  end.
Proof.
  intros st Hc.
  pose proof (reachable_consistent n es) as Hst. fold st in Hst.
  pose proof (reachable_accounted n es) as Hacc. fold st in Hacc.
  assert (Hnot : is_Some (calls st !! c) → c ∉ blocked_id <$> blocked st).
  { intros [o Ho] (b & -> & Hb)%list_elem_of_fmap.
    pose proof (blocked_known _ _ Hst) as Hk. rewrite app_nil_r in Hk.
    rewrite Forall_forall in Hk. destruct (Hk b Hb). congruence. }
  destruct (calls st !! c) as [[w|e]|] eqn:Hcall.
  - split; [by eauto|].
    destruct (returned_worker _ _ Hacc c w Hcall) as (i & Hi & Hsp).
    assert (w ∈ workers_of c st) as Hin by (apply workers_of_spec; eauto).
    pose proof (at_most_one_worker c st Hst) as Hlen.
    destruct (workers_of c st) as [|w1 [|w2 l]]; cbn in Hlen.
    + by apply elem_of_nil in Hin.
    + by apply list_elem_of_singleton in Hin as ->.
    + lia.
  - split; [by eauto|]. by eapply no_worker_after_throw.
  - split.
    + destruct (calls_accounted _ _ Hacc c Hc) as [Hin|[o Ho]]; [|congruence].
      by rewrite app_nil_r in Hin.
    + destruct (workers_of c st) as [|w l] eqn:E; [done|].
      assert (w ∈ workers_of c st) as (i & Hi & Hci)%workers_of_spec
        by (rewrite E; left).
      destruct (workers_known _ _ Hst _ _ Hi) as [_ Hr]. congruence.
Qed.

Lemma every_call_is_accounted_for_witness :
  let st := run [call_runJob "source_sync" "mitre";
                 call_runJob "source_sync" "cpr_blogs"] (constructor 1) in
  1 ∈ blocked_id <$> blocked st ∧ workers_of 1 st = [].
Proof.
  refine (every_call_is_accounted_for 1
            [call_runJob "source_sync" "mitre";
             call_runJob "source_sync" "cpr_blogs"] 1 _).
  vm_compute. lia.
Defined.

(** X21. While fewer workers are running than the ceiling allows, [runJob]
    starts its worker in the same turn, with the given type and data,
    registers it in [running], returns its pending promise, and leaves the
    waiting calls as they are. *)
Theorem runJob_below_ceiling_starts_worker n es type data :
  let st := run es (constructor n) in
  in_flight st < maxParallel st →
  let st' := runJob type data st in
  in_flight st' = S (in_flight st)
  ∧ blocked st' = blocked st
  ∧ calls st' !! next_call st = Some (returned (next_worker st))
  ∧ workers st' !! next_worker st
    = Some {| jobType := type; workerData := data;
              spawned_by := next_call st |}
  ∧ running st' !! next_worker st = Some (next_worker st)
  ∧ submitter_sees (next_call st) st' = Pending.
Proof.
  intros st Hlt st'.
  pose proof (reachable_consistent n es) as Hst. fold st in Hst.
  destruct (next_worker_free st [] Hst) as [Hfree _].
  subst st'. unfold runJob, in_flight in *. cbn.
  rewrite decide_False by lia.
  unfold submitter_sees. cbn. rewrite !lookup_insert_eq. cbn.
  split_and!; try done. by apply map_size_insert_None.
Qed.

Lemma runJob_below_ceiling_starts_worker_witness :
  let st := run [call_runJob "source_sync" "mitre"] exported in
  in_flight (runJob "doc_sanitizer" "mitre" st) = S (in_flight st).
Proof.
  intros st.
  refine (proj1 (runJob_below_ceiling_starts_worker 3
                   [call_runJob "source_sync" "mitre"] "doc_sanitizer" "mitre" _)).
  vm_compute. lia.
Defined.

Import Dashboard.
Local Open Scope Z_scope.

(** ** The dashboard statistics *)

Lemma increment_lookup key stats k :
  increment key stats !! k
  = if decide (key = k) then incremented 1 (stats !! k) else stats !! k.
Proof.
  unfold increment. case_decide as Hk.
  - subst. rewrite lookup_insert_eq. by destruct (stats !! k) as [[]|].
  - by rewrite lookup_insert_ne.
Qed.

Lemma incremented_S n v : incremented n (incremented 1 v) = incremented (S n) v.
Proof.
  destruct n as [|n]; cbn.
  - by destruct v as [[]|].
  - destruct v as [[z|]|]; try done. do 2 f_equal. lia.
Qed.

Lemma label_inj s1 s2 : label s1 = label s2 → s1 = s2.
Proof. by destruct s1, s2. Qed.

Lemma foldl_increment_lookup jobs : ∀ stats s,
  foldl (λ stats job, increment (label (status job)) stats) stats jobs !! label s
  = incremented (with_status s jobs) (stats !! label s).
Proof.
  induction jobs as [|j jobs IH]; intros stats s; [done|].
  cbn [foldl]. rewrite IH, increment_lookup.
  unfold with_status. rewrite filter_cons.
  destruct (decide (status j = s)) as [Hs|Hs].
  - rewrite decide_True by by rewrite Hs. cbn [length]. apply incremented_S.
  - rewrite decide_False; [done|]. intros Heq. by apply label_inj in Heq.
Qed.

(** X22. The statistics of the dashboard: for each of the four statuses it
    shows, the counter is the number of jobs of that status.  A cancelled
    job disturbs none of them, but adds a key [cancelled] that holds [NaN];
    without a cancelled job there is no such key. *)
Theorem stats_count_jobs_by_status jobs s :
  calculate_stats jobs !! label s
  = if decide (s = job_cancelled)
    then if decide (with_status s jobs = 0%nat) then None else Some NaN
    else Some (Num (Z.of_nat (with_status s jobs))).
Proof.
  unfold calculate_stats. rewrite foldl_increment_lookup.
  destruct s; cbn [label]; (case_decide as Hs; [try done|try done]);
    vm_compute (initial_stats !! _);
    destruct (with_status _ jobs); cbn; try done; do 2 f_equal; lia.
Qed.
